(** * Bike weather app: the track pipeline of [public/app.js]

    A shallow embedding of [processGPX], [samplePointsByDistance],
    [calculateTimedPoints] and [fetchWeatherData], and the properties of
    the track-resampling and time-projection core.

    Numbers.  A JavaScript number is modelled by [num]: a rational, [NaN],
    [+Infinity] or [-Infinity].  The special values follow IEEE 754
    (comparisons with [NaN] are false, [x / 0] is infinite or [NaN], ...);
    the sign of zero is not modelled.  The operations of [Num] are exact;
    those of [Binary64] round the exact result to the nearest double, as
    IEEE 754 defines the arithmetic of JavaScript.  Properties that rest on
    comparisons, on the order of the steps and on the shape of the results
    are stated with the exact operations; the value of the times of the
    projector, whose millisecond depends on the rounding, is stated on
    [Rounded], the projector with the operations of [Binary64].

    Completions.  A call of a JavaScript function either returns a value or
    throws; the [while] loop of the sampler runs on fuel, and running out of
    fuel is a third outcome that stands for a loop that is still running. *)

From Stdlib Require Import ZArith QArith Qround Qabs Qpower Lia Lqa.
From Stdlib Require Qcanon.
From stdpp Require Import gmap strings list fin_maps.

Local Open Scope Z_scope.

(* ===================================================================== *)
(** ** JavaScript numbers *)
(* ===================================================================== *)

Module Num.

Inductive num : Type :=
| NaN
| PInf
| NInf
| Fin (q : Q).

Definition of_Z (z : Z) : num := Fin (inject_Z z).

Definition is_finite (a : num) : bool :=
  match a with Fin _ => true | _ => false end.

Definition is_nan (a : num) : bool :=
  match a with NaN => true | _ => false end.

Definition neg (a : num) : num :=
  match a with
  | NaN => NaN
  | PInf => NInf
  | NInf => PInf
  | Fin q => Fin (- q)
  end.

(** [a + b] *)
Definition add (a b : num) : num :=
  match a, b with
  | NaN, _ | _, NaN => NaN
  | PInf, NInf | NInf, PInf => NaN
  | PInf, _ | _, PInf => PInf
  | NInf, _ | _, NInf => NInf
  | Fin x, Fin y => Fin (x + y)
  end.

(** [a - b] *)
Definition sub (a b : num) : num := add a (neg b).

(** The sign of a rational: [Lt], [Eq] or [Gt] as it is below, at or above 0. *)
Definition sgn (q : Q) : comparison := (q ?= 0)%Q.

Definition inf_of (positive : bool) : num := if positive then PInf else NInf.

Definition is_pinf (a : num) : bool :=
  match a with PInf => true | _ => false end.

(** [a * b] *)
Definition mul (a b : num) : num :=
  match a, b with
  | NaN, _ | _, NaN => NaN
  | Fin x, Fin y => Fin (x * y)
  | Fin x, i | i, Fin x =>
      match sgn x with
      | Eq => NaN
      | Gt => i
      | Lt => neg i
      end
  | i, j => inf_of (Bool.eqb (is_pinf i) (is_pinf j))
  end.

(** [a / b] *)
Definition div (a b : num) : num :=
  match a, b with
  | NaN, _ | _, NaN => NaN
  | Fin x, Fin y =>
      match sgn y with
      | Eq => match sgn x with Eq => NaN | Gt => PInf | Lt => NInf end
      | _ => Fin (x / y)
      end
  | Fin _, _ => Fin 0
  | i, Fin y => match sgn y with Lt => neg i | _ => i end
  | _, _ => NaN
  end.

(** [a <= b] *)
Definition le (a b : num) : bool :=
  match a, b with
  | NaN, _ | _, NaN => false
  | NInf, _ | _, PInf => true
  | _, NInf | PInf, _ => false
  | Fin x, Fin y => Qle_bool x y
  end.

(** [a < b] *)
Definition lt (a b : num) : bool :=
  match a, b with
  | NaN, _ | _, NaN => false
  | PInf, _ | _, NInf => false
  | NInf, _ | _, PInf => true
  | Fin x, Fin y => negb (Qle_bool y x)
  end.

(** [a >= b] and [a > b] *)
Definition ge (a b : num) : bool := le b a.
Definition gt (a b : num) : bool := lt b a.

(** [a === b] on numbers *)
Definition seq (a b : num) : bool :=
  match a, b with
  | PInf, PInf | NInf, NInf => true
  | Fin x, Fin y => Qeq_bool x y
  | _, _ => false
  end.

End Num.

Export Num.

Declare Scope num_scope.
Delimit Scope num_scope with num.
Bind Scope num_scope with num.
Infix "+" := Num.add : num_scope.
Infix "-" := Num.sub : num_scope.
Infix "*" := Num.mul : num_scope.
Infix "/" := Num.div : num_scope.
Infix "<=?" := Num.le : num_scope.
Infix "<?" := Num.lt : num_scope.
Infix ">=?" := Num.ge : num_scope.
Infix ">?" := Num.gt : num_scope.
Infix "===" := Num.seq (at level 70, no associativity) : num_scope.

Coercion Num.of_Z : Z >-> num.

(* ===================================================================== *)
(** ** Completions *)
(* ===================================================================== *)

Inductive js_error : Type :=
| TypeError       (* a property read on [undefined] *)
| RangeError      (* [toISOString] of an invalid [Date] *)
| InvalidLatLng   (* Leaflet's [L.latLng] on a NaN coordinate *)
| Rejected.       (* a rejected promise of the weather service *)

Inductive outcome (A : Type) : Type :=
| Done (a : A)
| Throw (e : js_error)
| OutOfFuel.

Arguments Done {A} a.
Arguments Throw {A} e.
Arguments OutOfFuel {A}.

#[global] Instance outcome_bind : MBind outcome := fun A B k m =>
  match m with
  | Done a => k a
  | Throw e => Throw e
  | OutOfFuel => OutOfFuel
  end.

(** What a call into a library or a service outside the repository comes
    to: a value, or an error that is thrown (a promise that is rejected). *)
Inductive result (A : Type) : Type :=
| Ok (a : A)
| Err (e : js_error).

Arguments Ok {A} a.
Arguments Err {A} e.

(** The call, or the [await] of the promise. *)
Definition call {A : Type} (r : result A) : outcome A :=
  match r with
  | Ok a => Done a
  | Err e => Throw e
  end.

(** Reading a property of a value that may be [undefined]. *)
Definition prop {A B : Type} (o : option A) (f : A -> B) : outcome B :=
  match o with
  | Some a => Done (f a)
  | None => Throw TypeError
  end.

(** [!o] for [o] an object or [undefined]. *)
Definition undefined {A : Type} (o : option A) : bool :=
  match o with Some _ => false | None => true end.

(** [arr[i]]: [undefined] outside the array, also for a negative index. *)
Definition at_index {A : Type} (arr : list A) (i : Z) : option A :=
  if i <? 0 then None else arr !! Z.to_nat i.

(* ===================================================================== *)
(** ** Track points *)
(* ===================================================================== *)

(** The object [{ lat, lon, cumulativeDistance }] of [processGPX]. *)
Record Point : Type := mkPoint {
  lat : num;
  lon : num;
  cumulativeDistance : num
}.

(** [points.find(pred)], together with the position of the element found.
    [points.indexOf(nextPoint)] is that position: [find] returns the first
    element that satisfies the predicate, and an earlier occurrence of the
    same object would satisfy it as well. *)
Fixpoint find_from (pred : Point -> bool) (points : list Point) (i : Z)
  : option (Z * Point) :=
  match points with
  | [] => None
  | p :: rest => if pred p then Some (i, p) else find_from pred rest (i + 1)
  end.

Definition find (pred : Point -> bool) (points : list Point) : option (Z * Point) :=
  find_from pred points 0.

(* ===================================================================== *)
(** ** The distance sampler *)
(* ===================================================================== *)

Section Sampler.

Variable points : list Point.
Variable intervalMeters : num.
Variable totalDistance : num.

(** The [while (currentInterval <= totalDistance)] loop: one unit of fuel
    per test of the condition. *)
Fixpoint sample_loop (fuel : nat) (currentInterval : num) (sampled : list Point)
  : outcome (list Point) :=
  match fuel with
  | O => OutOfFuel
  | S fuel' =>
      if (currentInterval <=? totalDistance)%num then
        match find (fun p => (cumulativeDistance p >=? currentInterval)%num) points with
        | None => Done sampled
        | Some (idx, nextPoint) =>
            let prevPoint := at_index points (idx - 1) in
            if ((cumulativeDistance nextPoint === currentInterval)%num
                || undefined prevPoint)%bool
            then
              sample_loop fuel' (currentInterval + intervalMeters)%num
                          (sampled ++ [nextPoint])
            else
              prevDist ← prop prevPoint cumulativeDistance;
              prevLat ← prop prevPoint lat;
              prevLon ← prop prevPoint lon;
              let ratio := ((currentInterval - prevDist)
                            / (cumulativeDistance nextPoint - prevDist))%num in
              sample_loop fuel' (currentInterval + intervalMeters)%num
                (sampled ++
                 [ {| lat := (prevLat + (lat nextPoint - prevLat) * ratio)%num;
                      lon := (prevLon + (lon nextPoint - prevLon) * ratio)%num;
                      cumulativeDistance := currentInterval |} ])
        end
      else Done sampled
  end.

End Sampler.

(** [points[points.length - 1]] is read twice, for [totalDistance] and for
    [lastPoint]; the first read already needs it to be an object. *)
Definition samplePointsByDistance (fuel : nat) (points : list Point) (intervalMeters : num)
  : outcome (list Point) :=
  if ((length points =? 0)%nat || (intervalMeters <=? 0)%num)%bool then Done points
  else
    let last_index := Z.of_nat (length points) - 1 in
    totalDistance ← prop (at_index points last_index) cumulativeDistance;
    sampled ← sample_loop points intervalMeters totalDistance fuel 0 [];
    lastPoint ← prop (at_index points last_index) id;
    if (length sampled =? 0)%nat then Done (sampled ++ [lastPoint])
    else
      lastSampled ← prop (at_index sampled (Z.of_nat (length sampled) - 1)) cumulativeDistance;
      if (lastSampled <? cumulativeDistance lastPoint)%num
      then Done (sampled ++ [lastPoint])
      else Done sampled.

(* ===================================================================== *)
(** ** The track loader *)
(* ===================================================================== *)

Section Loader.

(** Leaflet is not part of the repository: [L.latLng(lat, lon)] yields
    coordinates or throws, [a.distanceTo(b)] is a number. *)
Variable LatLng : Type.
Variable latLng : num -> num -> result LatLng.
Variable distanceTo : LatLng -> LatLng -> num.

(** The body of the [forEach] of [processGPX], over the [trkpt] elements
    that remain; an element is given by its parsed [lat] and [lon]. *)
Fixpoint processGPX_from (trackPoints : list (num * num)) (index : nat)
    (cumDist : num) (prevCoords : option LatLng) (points : list Point)
  : outcome (list Point) :=
  match trackPoints with
  | [] => Done points
  | (lat, lon) :: rest =>
      currentCoords ← call (latLng lat lon);
      cumDist' ← (if (0 <? index)%nat
                  then d ← prop prevCoords (distanceTo currentCoords);
                       Done (cumDist + d)%num
                  else Done cumDist);
      processGPX_from rest (S index) cumDist' (Some currentCoords)
        (points ++ [ {| lat := lat; lon := lon; cumulativeDistance := cumDist' |} ])
  end.

Definition processGPX (trackPoints : list (num * num)) : outcome (list Point) :=
  processGPX_from trackPoints 0 0 None [].

End Loader.

(* ===================================================================== *)
(** ** Dates and objects *)
(* ===================================================================== *)

(** A [Date] holds a time value: a whole number of milliseconds since the
    epoch, or NaN (an invalid date). *)
Inductive Date : Type :=
| InvalidDate
| ValidDate (ms : Z).

Definition getTime (d : Date) : num :=
  match d with
  | InvalidDate => NaN
  | ValidDate ms => of_Z ms
  end.

(** Truncation toward zero. *)
Definition Qtrunc (q : Q) : Z := Z.quot (Qnum q) (Zpos (Qden q)).

Definition maxTime : Z := 8640000000000000.

(** [new Date(v)] for a number [v]: the time value is [TimeClip(v)]. *)
Definition newDate (v : num) : Date :=
  match v with
  | Fin q => if Qle_bool (Qabs q) (inject_Z maxTime) then ValidDate (Qtrunc q) else InvalidDate
  | _ => InvalidDate
  end.

(** [Date.UTC(year, month - 1, day, h, m, s)]: the time value of a calendar
    date, by the day count of the proleptic Gregorian calendar. *)
Definition days_from_civil (y m d : Z) : Z :=
  let y' := if m <=? 2 then y - 1 else y in
  let era := y' / 400 in
  let yoe := y' - era * 400 in
  let mp := (m + 9) mod 12 in
  let doy := (153 * mp + 2) / 5 + d - 1 in
  let doe := yoe * 365 + yoe / 4 - yoe / 100 + doy in
  era * 146097 + doe - 719468.

Definition Date_UTC (y m d hh mm ss : Z) : Z :=
  ((days_from_civil y m d * 24 + hh) * 60 + mm) * 60000 + ss * 1000.

Inductive value : Type :=
| VUndefined
| VNull
| VNum (n : num)
| VDate (d : Date).

(** An object built by an object literal or a spread: a finite map from
    property names to values; a missing property reads as [undefined]. *)
Abbreviation object := (gmap string value).

Definition get (o : object) (k : string) : value :=
  match o !! k with
  | Some v => v
  | None => VUndefined
  end.

(* ===================================================================== *)
(** ** The time projector *)
(* ===================================================================== *)

(** The arrow function of [calculateTimedPoints]: the object
    [{ lat, lon, time }] of one point. *)
Definition timedPoint (startTime : Date) (avgSpeed : num) (point : Point) : object :=
  {[ "lat" := VNum (lat point);
     "lon" := VNum (lon point);
     "time" := VDate (newDate (getTime startTime +
                 (cumulativeDistance point / 1000 / avgSpeed) * 3600000)%num) ]}.

Definition calculateTimedPoints (points : list Point) (startTime : Date) (avgSpeed : num)
  : outcome (list object) :=
  Done (map (timedPoint startTime avgSpeed) points).

(* ===================================================================== *)
(** ** Binary64 arithmetic *)
(* ===================================================================== *)

(** The doubles of IEEE 754: the rationals [m * 2^e] with a whole [m] below
    [2^53] in size and [-1074 <= e <= 971], the two infinities and NaN.  An
    operation on doubles gives the double nearest to its exact result. *)
Module Binary64.

(** The exponent of the leading bit of a rational [q > 0]: the [e] with
    [2^e <= q < 2^(e+1)]. *)
Definition ilog2 (q : Q) : Z :=
  let e := Z.log2 (Qnum q) - Z.log2 (Zpos (Qden q)) in
  if Qle_bool (2 ^ e) q then e else e - 1.

(** The whole number nearest to [m]; of two that are equally near, the even
    one. *)
Definition nearest_even (m : Q) : Z :=
  let f := Qfloor m in
  match (m - inject_Z f ?= 1 # 2)%Q with
  | Lt => f
  | Gt => f + 1
  | Eq => if Z.even f then f else f + 1
  end.

(** The double nearest to the rational [q]: [q] is cut to 53 bits from its
    leading bit on, and to the multiples of [2^-1074] where it is
    subnormal; from [2^1024] on the result is infinite. *)
Definition round (q : Q) : num :=
  match sgn q with
  | Eq => Fin 0
  | _ =>
      let e := Z.max (ilog2 (Qabs q) - 52) (-1074) in
      let r := (inject_Z (nearest_even (q / 2 ^ e)) * 2 ^ e)%Q in
      if Qle_bool (2 ^ 1024) (Qabs r) then inf_of (Qle_bool 0 q) else Fin (Qred r)
  end.

Definition rounded (a : num) : num :=
  match a with
  | Fin q => round q
  | _ => a
  end.

(** [a + b], [a * b] and [a / b] on doubles. *)
Definition add (a b : num) : num := rounded (Num.add a b).
Definition mul (a b : num) : num := rounded (Num.mul a b).
Definition div (a b : num) : num := rounded (Num.div a b).

(** The unit roundoff [2^-53], and [2^-1075], half the smallest double
    above 0. *)
Definition unit_roundoff : Q := 1 # 9007199254740992.
Definition tiny : Q := (2 ^ (-1075))%Q.

End Binary64.

Declare Scope b64_scope.
Delimit Scope b64_scope with b64.
Arguments Binary64.add (a b)%_b64.
Arguments Binary64.mul (a b)%_b64.
Arguments Binary64.div (a b)%_b64.
Infix "+" := Binary64.add : b64_scope.
Infix "*" := Binary64.mul : b64_scope.
Infix "/" := Binary64.div : b64_scope.

(** The time projector on doubles. *)
Module Rounded.

Definition timedPoint (startTime : Date) (avgSpeed : num) (point : Point) : object :=
  {[ "lat" := VNum (lat point);
     "lon" := VNum (lon point);
     "time" := VDate (newDate (getTime startTime +
                 (cumulativeDistance point / 1000 / avgSpeed) * 3600000)%b64) ]}.

Definition calculateTimedPoints (points : list Point) (startTime : Date) (avgSpeed : num)
  : outcome (list object) :=
  Done (map (timedPoint startTime avgSpeed) points).

End Rounded.

(* ===================================================================== *)
(** ** The weather annotator *)
(* ===================================================================== *)

(** The part of the parsed response that the code reads; a property that is
    missing or [null] is [None]. *)
Record Hourly : Type := mkHourly {
  temperature_2m : option (list value);
  windspeed_10m : option (list value);
  weathercode : option (list value)
}.

Record Data : Type := mkData { hourly : option Hourly }.

(** The URL of a request, by the four values spliced into it; the
    [YYYY-MM-DD] text of a day is given by the number of the day. *)
Record Request : Type := mkRequest {
  latitude : value;
  longitude : value;
  start_date : Z;
  end_date : Z
}.

(** One card of the weather timeline, before the values are printed. *)
Record Card : Type := mkCard {
  card_time : value;
  card_distance_km : num;
  card_temp : value;
  card_wind : value;
  card_code : value
}.

(** [ToNumber] *)
Definition to_number (v : value) : num :=
  match v with
  | VUndefined => NaN
  | VNull => 0
  | VNum n => n
  | VDate d => getTime d
  end.

Definition msPerDay : Z := 86400000.

(** [date.toISOString().split('T')[0]] *)
Definition formatDate (date : value) : outcome Z :=
  match date with
  | VDate (ValidDate ms) => Done (ms / msPerDay)
  | VDate InvalidDate => Throw RangeError
  | _ => Throw TypeError
  end.

(** [arr[i]] for a number [i] *)
Definition element (arr : list value) (i : num) : value :=
  match i with
  | Fin q =>
      if Qeq_bool q (inject_Z (Qfloor q))
      then default VUndefined (at_index arr (Qfloor q))
      else VUndefined
  | _ => VUndefined
  end.

(** [{ ...point, temp, wind, code }] *)
Definition weatherPoint (point : object) (sample : value * value * value) : object :=
  let '(temp, wind, code) := sample in
  <["code" := code]> (<["wind" := wind]> (<["temp" := temp]> point)).

Section Annotator.

(** The weather service, the clock's time zone and Leaflet are outside the
    repository.  What [fetch] resolves to may depend on the requests sent
    before. *)
Variable Response : Type.
Variable service : list Request -> Request -> result Response.
Variable json : Response -> result Data.
Variable getHours : Z -> Z.
Variable Marker : Type.
Variable L_marker : value -> value -> value -> result Marker.

Record World : Type := mkWorld {
  requests : list Request;           (* the requests sent so far *)
  markers : list Marker;             (* the global [markers] *)
  console : list js_error;           (* [console.error] *)
  weatherTimeline : list Card        (* the [weatherTimeline] element *)
}.

(** The state of a run: the local array [weatherData] and the world. *)
Record State : Type := mkState {
  weatherData : list object;
  world : World
}.

(** An effectful computation: it changes the state, also when it throws. *)
Definition Eff (A : Type) : Type := State -> outcome A * State.

Definition eff_ret {A : Type} (a : A) : Eff A := fun s => (Done a, s).

Definition eff_bind {A B : Type} (m : Eff A) (k : A -> Eff B) : Eff B :=
  fun s =>
    match m s with
    | (Done a, s') => k a s'
    | (Throw e, s') => (Throw e, s')
    | (OutOfFuel, s') => (OutOfFuel, s')
    end.

Definition lift {A : Type} (o : outcome A) : Eff A := fun s => (o, s).

Definition try_catch (body : Eff unit) (handler : js_error -> Eff unit) : Eff unit :=
  fun s =>
    match body s with
    | (Throw e, s') => handler e s'
    | r => r
    end.

Notation "'do' x <- m ; k" := (eff_bind m (fun x => k))
  (at level 10, x name, m at level 100, k at level 200).
Notation "m ;; k" := (eff_bind m (fun _ => k))
  (at level 100, k at level 200, right associativity).

Definition with_world (f : World -> World) : Eff unit :=
  fun s => (Done tt, {| weatherData := weatherData s; world := f (world s) |}).

(** [await fetch(url)] *)
Definition fetch (req : Request) : Eff Response :=
  fun s =>
    let w := world s in
    (call (service (requests w) req),
     {| weatherData := weatherData s;
        world := {| requests := requests w ++ [req]; markers := markers w;
                    console := console w; weatherTimeline := weatherTimeline w |} |}).

(** [weatherData.push(o)] *)
Definition push (o : object) : Eff unit :=
  fun s => (Done tt, {| weatherData := weatherData s ++ [o]; world := world s |}).

(** [point.time.getHours()] *)
Definition time_getHours (time : value) : outcome num :=
  match time with
  | VDate (ValidDate ms) => Done (of_Z (getHours ms))
  | VDate InvalidDate => Done NaN
  | _ => Throw TypeError
  end.

(** [data.hourly.<series>[hourIndex]] *)
Definition hourly_at (data : Data) (series : Hourly -> option (list value)) (hourIndex : num)
  : outcome value :=
  arr ← prop (hourly data) series;
  prop arr (fun a => element a hourIndex).

(** [addMarker(point, temp)]: Leaflet makes the marker and adds it to the
    map, or throws; the marker is then pushed on [markers]. *)
Definition addMarker (point : object) (temp : value) : Eff unit :=
  do marker <- lift (call (L_marker (get point "lat") (get point "lon") temp));
  with_world (fun w =>
    {| requests := requests w; markers := markers w ++ [marker];
       console := console w; weatherTimeline := weatherTimeline w |}).

(** [console.error('Weather fetch failed:', error)] *)
Definition console_error (e : js_error) : Eff unit :=
  with_world (fun w =>
    {| requests := requests w; markers := markers w;
       console := console w ++ [e]; weatherTimeline := weatherTimeline w |}).

(** [clearMarkers()]: the markers leave the map and [markers] is emptied. *)
Definition clearMarkers : Eff unit :=
  with_world (fun w =>
    {| requests := requests w; markers := [];
       console := console w; weatherTimeline := weatherTimeline w |}).

(** The card of one weather point in [displayWeather]. *)
Definition card (point : object) : Card :=
  {| card_time := get point "time";
     card_distance_km := (to_number (get point "cumulativeDistance") / 1000)%num;
     card_temp := get point "temp";
     card_wind := get point "wind";
     card_code := get point "code" |}.

Definition displayWeather (data : list object) : Eff unit :=
  with_world (fun w =>
    {| requests := requests w; markers := markers w;
       console := console w; weatherTimeline := map card data |}).

(** The body of the [try] block for one point. *)
Definition try_body (point : object) : Eff unit :=
  do start_day <- lift (formatDate (get point "time"));
  do end_day <- lift (formatDate (get point "time"));
  do response <- fetch {| latitude := get point "lat"; longitude := get point "lon";
                          start_date := start_day; end_date := end_day |};
  do data <- lift (call (json response));
  do hourIndex <- lift (time_getHours (get point "time"));
  do temp <- lift (hourly_at data temperature_2m hourIndex);
  do wind <- lift (hourly_at data windspeed_10m hourIndex);
  do code <- lift (hourly_at data weathercode hourIndex);
  push (weatherPoint point (temp, wind, code)) ;;
  do temp' <- lift (hourly_at data temperature_2m hourIndex);
  addMarker point temp'.

(** [for (const point of points) { try { ... } catch (error) { ... } }] *)
Fixpoint for_of (points : list object) : Eff unit :=
  match points with
  | [] => eff_ret tt
  | point :: rest =>
      try_catch (try_body point) console_error ;;
      for_of rest
  end.

(** [fetchWeatherData(points)] from a world [w]: the completion, and the
    state at the end, with the array that [displayWeather] was given. *)
Definition fetchWeatherData (points : list object) (w : World) : outcome unit * State :=
  (clearMarkers ;;
   for_of points ;;
   fun s => displayWeather (weatherData s) s)
  {| weatherData := []; world := w |}.

(** The lookup of the forecast for one point, as a function of the
    requests sent before it: the statements of the [try] block that come
    before [weatherData.push]. *)
Definition lookup (sent : list Request) (point : object) : outcome (value * value * value) :=
  start_day ← formatDate (get point "time");
  end_day ← formatDate (get point "time");
  response ← call (service sent {| latitude := get point "lat"; longitude := get point "lon";
                                   start_date := start_day; end_date := end_day |});
  data ← call (json response);
  hourIndex ← time_getHours (get point "time");
  temp ← hourly_at data temperature_2m hourIndex;
  wind ← hourly_at data windspeed_10m hourIndex;
  code ← hourly_at data weathercode hourIndex;
  Done (temp, wind, code).

(** The requests that the lookup for a point sends: one, unless the date
    of the point cannot be printed. *)
Definition sends (point : object) : list Request :=
  match formatDate (get point "time") with
  | Done day => [ {| latitude := get point "lat"; longitude := get point "lon";
                     start_date := day; end_date := day |} ]
  | _ => []
  end.

(** The answers of the lookups for a sequence of points, asked one after
    the other in the order of the sequence. *)
Fixpoint lookups (sent : list Request) (points : list object)
  : list (outcome (value * value * value)) :=
  match points with
  | [] => []
  | point :: rest => lookup sent point :: lookups (sent ++ sends point) rest
  end.

End Annotator.

Arguments requests {Marker} w.
Arguments markers {Marker} w.
Arguments console {Marker} w.
Arguments weatherTimeline {Marker} w.
Arguments weatherData {Marker} s.
Arguments world {Marker} s.

(** The weather points of the successful lookups, in the order of the points. *)
Fixpoint successes (points : list object) (answers : list (outcome (value * value * value)))
  : list object :=
  match points, answers with
  | point :: points', Done sample :: answers' =>
      weatherPoint point sample :: successes points' answers'
  | _ :: points', _ :: answers' => successes points' answers'
  | _, _ => []
  end.

(* ===================================================================== *)
(** ** Predicates on tracks *)
(* ===================================================================== *)

(** Neighbouring points are related by [rel] on their cumulative distances. *)
Fixpoint adjacent (rel : num -> num -> bool) (points : list Point) : bool :=
  match points with
  | p :: (q :: _) as rest =>
      rel (cumulativeDistance p) (cumulativeDistance q) && adjacent rel rest
  | _ => true
  end.

Definition nondecreasing (points : list Point) : bool := adjacent Num.le points.
Definition increasing (points : list Point) : bool := adjacent Num.lt points.

(** The total distance of a track: the cumulative distance of its last
    point (NaN stands in for the empty track, which has none). *)
Definition total (points : list Point) : num :=
  match last points with
  | Some p => cumulativeDistance p
  | None => NaN
  end.

(** Fuel that lets the loop of the sampler finish on a track of finite
    total distance: one test per offset up to the total, and the last one. *)
Definition enough_fuel (points : list Point) (intervalMeters : num) : nat :=
  match total points, intervalMeters with
  | Fin t, Fin i => Z.to_nat (Qfloor (t / i)) + 2
  | _, _ => 2
  end.

(** Points at latitude and longitude 0, told apart by their cumulative
    distance: the tracks of the examples. *)
Definition at_distance (d : num) : Point :=
  {| lat := 0; lon := 0; cumulativeDistance := d |}.

(** A weather service for the examples: it rejects the third request and
    answers every other one with the same forecast of one hour. *)
Definition example_data : Data :=
  {| hourly := Some {| temperature_2m := Some [VNum 12];
                       windspeed_10m := Some [VNum 3];
                       weathercode := Some [VNum 61] |} |}.

Definition third_fails (sent : list Request) (req : Request) : result Data :=
  if (length sent =? 2)%nat then Err Rejected else Ok example_data.

(** A flat stand-in for Leaflet: coordinates are pairs, NaN is refused, and
    the distance is the difference of the latitudes. *)
Definition plane_latLng (lat lon : num) : result (num * num) :=
  if (is_nan lat || is_nan lon)%bool then Err InvalidLatLng else Ok (lat, lon).

Definition plane_distanceTo (a b : num * num) : num :=
  let d := (fst a - fst b)%num in if (d <? 0)%num then neg d else d.

(** The time of a point in exact arithmetic, in milliseconds: the start plus
    [(distance in km / speed)] hours. *)
Definition exact_time (start : Z) (distance speed : Q) : Q :=
  (inject_Z start + (distance / 1000 / speed) * 3600000)%Q.

(** 100 000 days in milliseconds, a thousandth of the range of a [Date] on
    either side of the epoch: the size of the start times and of the travel
    times for which the rounding of the projector is bounded below. *)
Definition span : Z := 8640000000000.

(* ===================================================================== *)
(** ** The page: the upload handler and the route *)
(* ===================================================================== *)

Section Page.

Variable LatLng : Type.
Variable latLng : num -> num -> result LatLng.
Variable distanceTo : LatLng -> LatLng -> num.
Variable Response : Type.
Variable service : list Request -> Request -> result Response.
Variable json : Response -> result Data.
Variable getHours : Z -> Z.
Variable Marker : Type.
Variable L_marker : value -> value -> value -> result Marker.

(** Leaflet's part in [displayRoute]: [L.polyline(latlngs, options).addTo(map)]
    yields the layer or throws, and so does [map.fitBounds(layer.getBounds())]. *)
Variable Route : Type.
Variable L_polyline : list (num * num) -> result Route.
Variable fitBounds : Route -> result unit.

(** The page: the world of the weather annotator, the global [routeLayer]
    and the error whose message the [errorContainer] element shows. *)
Record Page : Type := mkPage {
  page_world : World Marker;
  routeLayer : option Route;
  errorContainer : option js_error
}.

(** [displayRoute(points)]: the layer of before leaves the map, [routeLayer]
    is the new polyline of all the points, and the map is fitted to it. *)
Definition displayRoute (points : list Point) (pg : Page) : outcome unit * Page :=
  match L_polyline (map (fun p => (lat p, lon p)) points) with
  | Err e => (Throw e, pg)
  | Ok route =>
      let pg' := {| page_world := page_world pg; routeLayer := Some route;
                    errorContainer := errorContainer pg |} in
      match fitBounds route with
      | Err e => (Throw e, pg')
      | Ok _ => (Done tt, pg')
      end
  end.

(** [showError(`Error: ${error.message}`)]; the timer that empties the
    element five seconds later is left out. *)
Definition showError (e : js_error) (pg : Page) : Page :=
  {| page_world := page_world pg; routeLayer := routeLayer pg;
     errorContainer := Some e |}.

(** The statements of the [try] block of the handler that touch nothing of
    the page: the text of the file is read and parsed into its [trkpt]
    elements, the track is built, sampled and timed. *)
Definition prepare (fuel : nat) (text : result (list (num * num)))
    (startTime : Date) (avgSpeed intervalKm : num)
  : outcome (list Point * list object) :=
  trackPoints ← call text;
  points ← processGPX LatLng latLng distanceTo trackPoints;
  sampledPoints ← samplePointsByDistance fuel points (intervalKm * 1000)%num;
  timedPoints ← calculateTimedPoints sampledPoints startTime avgSpeed;
  Done (points, timedPoints).

(** The [change] handler of the [gpxUpload] element: [file] is
    [e.target.files[0]] with what reading it comes to, and the three numbers
    are those of the form. *)
Definition gpxUpload_change (fuel : nat) (file : option (result (list (num * num))))
    (startTime : Date) (avgSpeed intervalKm : num) (pg : Page) : outcome Page :=
  match file with
  | None => Done pg
  | Some text =>
      match prepare fuel text startTime avgSpeed intervalKm with
      | OutOfFuel => OutOfFuel
      | Throw e => Done (showError e pg)
      | Done (points, timedPoints) =>
          match displayRoute points pg with
          | (OutOfFuel, _) => OutOfFuel
          | (Throw e, pg1) => Done (showError e pg1)
          | (Done _, pg1) =>
              let '(r, s) := fetchWeatherData Response service json getHours Marker
                               L_marker timedPoints (page_world pg1) in
              let pg2 := {| page_world := world s; routeLayer := routeLayer pg1;
                            errorContainer := errorContainer pg1 |} in
              match r with
              | OutOfFuel => OutOfFuel
              | Throw e => Done (showError e pg2)
              | Done _ => Done pg2
              end
          end
      end
  end.

End Page.

Arguments page_world {Marker Route} p.
Arguments routeLayer {Marker Route} p.
Arguments errorContainer {Marker Route} p.

(* ===================================================================== *)
(** ** More predicates on tracks *)
(* ===================================================================== *)

(** The object literal of the [else] branch of the sampler: the point at the
    offset [currentInterval] between two points of the track. *)
Definition interpolate (prevPoint nextPoint : Point) (currentInterval : num) : Point :=
  let ratio := ((currentInterval - cumulativeDistance prevPoint)
                / (cumulativeDistance nextPoint - cumulativeDistance prevPoint))%num in
  {| lat := (lat prevPoint + (lat nextPoint - lat prevPoint) * ratio)%num;
     lon := (lon prevPoint + (lon nextPoint - lon prevPoint) * ratio)%num;
     cumulativeDistance := currentInterval |}.

(** The number of points that sampling a track of total distance [t] at the
    interval [i] gives: one per started interval, and the first one. *)
Definition samples_count (t i : Q) : nat := Z.to_nat (Qceiling (t / i)) + 1.

(** The offset of the sample number [k] (from 0) on a track of total
    distance [t] sampled at the interval [i]: [k] intervals from the start,
    or the end of the track where that lies before. *)
Definition offset_of (t i : Q) (k : nat) : Q :=
  let o := (inject_Z (Z.of_nat k) * i)%Q in
  if Qle_bool o t then o else t.

(** A stand-in for Leaflet on a line: a coordinate pair is its whole
    latitude, and the distance is the difference of the latitudes; a
    route is the list of its coordinates. *)
Definition line_latLng (lat lon : num) : result Z :=
  match lat with
  | Fin q => Ok (Qfloor q)
  | _ => Err InvalidLatLng
  end.

Definition line_distanceTo (a b : Z) : num := of_Z (Z.abs (a - b)).

Definition list_polyline (latlngs : list (num * num)) : result (list (num * num)) :=
  Ok latlngs.

Definition list_fitBounds (route : list (num * num)) : result unit :=
  match route with
  | [] => Err InvalidLatLng
  | _ => Ok tt
  end.

(* ===================================================================== *)
(** ** Facts on numbers *)
(* ===================================================================== *)

Lemma Qle_bool_false (x y : Q) : Qle_bool x y = false <-> (y < x)%Q.
Proof.
  split; intros H.
  - apply Qnot_le_lt. intros Hle. apply Qle_bool_iff in Hle. congruence.
  - destruct (Qle_bool x y) eqn:E; [|reflexivity].
    apply Qle_bool_iff in E. exfalso. apply (Qlt_not_le _ _ H E).
Qed.

Lemma Qeq_bool_false (x y : Q) : Qeq_bool x y = false <-> ~ (x == y)%Q.
Proof.
  split; intros H.
  - intros Heq. apply Qeq_bool_iff in Heq. congruence.
  - destruct (Qeq_bool x y) eqn:E; [|reflexivity].
    apply Qeq_bool_iff in E. contradiction.
Qed.

Lemma sgn_Eq (q : Q) : sgn q = Eq <-> (q == 0)%Q.
Proof. unfold sgn. symmetry. apply Qeq_alt. Qed.

Lemma sgn_Lt (q : Q) : sgn q = Lt <-> (q < 0)%Q.
Proof. unfold sgn. symmetry. apply Qlt_alt. Qed.

Lemma sgn_Gt (q : Q) : sgn q = Gt <-> (0 < q)%Q.
Proof. unfold sgn. rewrite <- Qgt_alt. reflexivity. Qed.

(** Comparisons of rationals, from booleans to propositions. *)
Ltac q_reflect :=
  repeat match goal with
  | H : Qle_bool _ _ = true |- _ => apply Qle_bool_iff in H
  | H : Qle_bool _ _ = false |- _ => apply Qle_bool_false in H
  | H : Qeq_bool _ _ = true |- _ => apply Qeq_bool_iff in H
  | H : Qeq_bool _ _ = false |- _ => apply Qeq_bool_false in H
  | H : negb _ = true |- _ => apply negb_true_iff in H
  | H : negb _ = false |- _ => apply negb_false_iff in H
  | |- Qle_bool _ _ = true => apply Qle_bool_iff
  | |- Qle_bool _ _ = false => apply Qle_bool_false
  | |- Qeq_bool _ _ = true => apply Qeq_bool_iff
  | |- Qeq_bool _ _ = false => apply Qeq_bool_false
  | |- negb _ = true => apply negb_true_iff
  | |- negb _ = false => apply negb_false_iff
  end.

(** Case analysis on the numbers at hand, then linear arithmetic. *)
Ltac num_solve :=
  unfold Num.ge, Num.gt, Num.of_Z in *;
  repeat match goal with x : num |- _ => destruct x end;
  simpl in *; try discriminate; try reflexivity; try congruence;
  q_reflect; change (inject_Z 0) with 0%Q in *; try lra.

Lemma le_trans (a b c : num) :
  (a <=? b)%num = true -> (b <=? c)%num = true -> (a <=? c)%num = true.
Proof. intros; num_solve. Qed.

Lemma seq_le (a b : num) : (a === b)%num = true -> (a <=? b)%num = true.
Proof. intros; num_solve. Qed.

Lemma le_not_lt_seq (a b : num) :
  (a <=? b)%num = true -> (a <? b)%num = false -> (a === b)%num = true.
Proof. intros; num_solve. Qed.

Lemma le_refl_finite (a : num) : is_finite a = true -> (a <=? a)%num = true.
Proof. intros; num_solve. Qed.

Lemma seq_refl_finite (a : num) : is_finite a = true -> (a === a)%num = true.
Proof. intros; num_solve. Qed.

(* ===================================================================== *)
(** ** Facts on arrays *)
(* ===================================================================== *)

Lemma at_index_last {A : Type} (arr : list A) :
  at_index arr (Z.of_nat (length arr) - 1) = last arr.
Proof.
  unfold at_index. rewrite last_lookup.
  destruct arr as [|a arr]; [reflexivity|].
  cbn [length]. destruct (Z.ltb_spec (Z.of_nat (S (length arr)) - 1) 0); [lia|].
  f_equal. lia.
Qed.

Lemma at_index_before_first {A : Type} (arr : list A) : at_index arr (0 - 1) = None.
Proof. reflexivity. Qed.

Lemma at_index_before {A : Type} (arr : list A) (i : Z) (a : A) :
  0 < i -> arr !! Z.to_nat i = Some a -> is_Some (at_index arr (i - 1)).
Proof.
  intros Hi Ha. unfold at_index.
  destruct (Z.ltb_spec (i - 1) 0); [lia|].
  apply lookup_lt_is_Some. apply lookup_lt_Some in Ha. lia.
Qed.

Lemma find_from_Some (pred : Point -> bool) (l : list Point) (i j : Z) (p : Point) :
  find_from pred l i = Some (j, p) ->
  i <= j /\ l !! Z.to_nat (j - i) = Some p /\ pred p = true.
Proof.
  revert i. induction l as [|a l IH]; intros i H; [discriminate|].
  cbn [find_from] in H. destruct (pred a) eqn:Ea.
  - injection H as <- <-. rewrite Z.sub_diag. auto with lia.
  - apply IH in H as (Hle & Hl & Hp). repeat split; [lia| |exact Hp].
    replace (Z.to_nat (j - i)) with (S (Z.to_nat (j - (i + 1)))) by lia.
    exact Hl.
Qed.

Lemma find_Some (pred : Point -> bool) (l : list Point) (j : Z) (p : Point) :
  find pred l = Some (j, p) ->
  0 <= j /\ l !! Z.to_nat j = Some p /\ pred p = true.
Proof.
  intros H. apply find_from_Some in H as (Hle & Hl & Hp).
  rewrite Z.sub_0_r in Hl. auto.
Qed.

(* ===================================================================== *)
(** ** The loop of the sampler *)
(* ===================================================================== *)

Section SamplerFacts.

Variable points : list Point.
Variable intervalMeters : num.
Variable totalDistance : num.

Local Abbreviation loop := (sample_loop points intervalMeters totalDistance).

Lemma sample_loop_exit (fuel : nat) (cur : num) (sampled : list Point) :
  (cur <=? totalDistance)%num = false ->
  loop (S fuel) cur sampled = Done sampled.
Proof. intros H. cbn [sample_loop]. rewrite H. reflexivity. Qed.

(** One turn of the loop: it stops on the elements it has, or it goes on
    with one more element, which is a point of the track at the offset, the
    first point of the track, or a new point at the offset. *)
Lemma sample_loop_step (cur : num) (sampled : list Point) :
  (cur <=? totalDistance)%num = true ->
  (forall fuel, loop (S fuel) cur sampled = Done sampled)
  \/ exists p,
       (forall fuel, loop (S fuel) cur sampled
                     = loop fuel (cur + intervalMeters)%num (sampled ++ [p]))
       /\ ((p ∈ points /\ (cumulativeDistance p === cur)%num = true)
           \/ (head points = Some p /\ (cumulativeDistance p >=? cur)%num = true)
           \/ cumulativeDistance p = cur).
Proof.
  intros Hle.
  destruct (find (fun p => (cumulativeDistance p >=? cur)%num) points)
    as [[idx next]|] eqn:Efind.
  - apply find_Some in Efind as Hfind. destruct Hfind as (Hidx & Hnext & Hge).
    right.
    destruct (cumulativeDistance next === cur)%num eqn:Eseq.
    + exists next. split.
      * intros fuel. cbn [sample_loop]. rewrite Hle, Efind, Eseq. reflexivity.
      * left. split; [|exact Eseq]. eapply list_elem_of_lookup_2, Hnext.
    + destruct (Z.eq_dec idx 0) as [->|Hne].
      * exists next. split.
        -- intros fuel. cbn [sample_loop]. rewrite Hle, Efind, Eseq. reflexivity.
        -- right. left. split; [|exact Hge].
           destruct points; [discriminate|]. exact Hnext.
      * destruct (at_index_before points idx next) as [prev Hprev]; [lia|exact Hnext|].
        eexists. split.
        -- intros fuel. cbn [sample_loop]. rewrite Hle, Efind, Eseq, Hprev.
           reflexivity.
        -- right. right. reflexivity.
  - left. intros fuel. cbn [sample_loop]. rewrite Hle, Efind. reflexivity.
Qed.

(** The loop does not throw: [prevPoint] is read only where it is defined. *)
Lemma sample_loop_no_throw (fuel : nat) (cur : num) (sampled : list Point) (e : js_error) :
  loop fuel cur sampled <> Throw e.
Proof.
  revert cur sampled. induction fuel as [|fuel IH]; intros cur sampled; [discriminate|].
  destruct (cur <=? totalDistance)%num eqn:Hle.
  - destruct (sample_loop_step cur sampled Hle) as [H|(p & H & _)]; rewrite H.
    + discriminate.
    + apply IH.
  - rewrite sample_loop_exit by exact Hle. discriminate.
Qed.

(** More fuel does not change a result. *)
Lemma sample_loop_fuel_mono (fuel fuel' : nat) (cur : num) (sampled out : list Point) :
  (fuel <= fuel')%nat ->
  loop fuel cur sampled = Done out ->
  loop fuel' cur sampled = Done out.
Proof.
  revert fuel' cur sampled.
  induction fuel as [|fuel IH]; intros fuel' cur sampled Hf H; [discriminate|].
  destruct fuel' as [|fuel']; [lia|].
  destruct (cur <=? totalDistance)%num eqn:Hle.
  - destruct (sample_loop_step cur sampled Hle) as [Hs|(p & Hs & _)];
      rewrite Hs in *; [exact H|].
    apply IH; [lia|exact H].
  - rewrite sample_loop_exit in * by exact Hle. exact H.
Qed.

(** An invariant of the offset and of the elements, kept by every turn,
    holds of the result for some offset. *)
Lemma sample_loop_invariant (Inv : num -> list Point -> Prop) :
  (forall cur sampled p,
      Inv cur sampled ->
      (cur <=? totalDistance)%num = true ->
      (p ∈ points /\ (cumulativeDistance p === cur)%num = true)
      \/ (head points = Some p /\ (cumulativeDistance p >=? cur)%num = true)
      \/ cumulativeDistance p = cur ->
      Inv (cur + intervalMeters)%num (sampled ++ [p])) ->
  forall fuel cur sampled out,
    Inv cur sampled ->
    loop fuel cur sampled = Done out ->
    exists cur', Inv cur' out.
Proof.
  intros Hstep. induction fuel as [|fuel IH]; intros cur sampled out HI H; [discriminate|].
  destruct (cur <=? totalDistance)%num eqn:Hle.
  - destruct (sample_loop_step cur sampled Hle) as [Hs|(p & Hs & Hp)]; rewrite Hs in H.
    + injection H as <-. eauto.
    + eapply IH; [|exact H]. eapply Hstep; eauto.
  - rewrite sample_loop_exit in H by exact Hle. injection H as <-. eauto.
Qed.

End SamplerFacts.

(** With a finite positive interval and a finite total, the offsets pass the
    total after finitely many turns. *)
Lemma sample_loop_finishes (points : list Point) (q t : Q) :
  (0 < q)%Q ->
  forall (n : nat) (c : Q) (sampled : list Point) (fuel : nat),
    (t - c < inject_Z (Z.of_nat n) * q)%Q ->
    (n < fuel)%nat ->
    exists out, sample_loop points (Fin q) (Fin t) fuel (Fin c) sampled = Done out.
Proof.
  intros Hq. induction n as [|n IH]; intros c sampled fuel Hc Hf.
  - destruct fuel as [|fuel]; [lia|].
    exists sampled. apply sample_loop_exit. cbn. q_reflect.
    change (inject_Z (Z.of_nat 0)) with 0%Q in Hc. lra.
  - destruct fuel as [|fuel]; [lia|].
    destruct (Fin c <=? Fin t)%num eqn:Hle.
    + destruct (sample_loop_step points (Fin q) (Fin t) (Fin c) sampled Hle)
        as [Hs|(p & Hs & _)]; rewrite Hs; [eauto|].
      apply IH; [|lia].
      rewrite Nat2Z.inj_succ, <- Z.add_1_r, inject_Z_plus in Hc.
      change (inject_Z 1) with 1%Q in Hc. lra.
    + exists sampled. apply sample_loop_exit. exact Hle.
Qed.

Lemma enough_fuel_bound (q t : Q) :
  (0 < q)%Q ->
  (t - 0 < inject_Z (Z.of_nat (Z.to_nat (Qfloor (t / q)) + 1)) * q)%Q.
Proof.
  intros Hq.
  assert (Hfl : (t / q < inject_Z (Qfloor (t / q) + 1))%Q) by apply Qlt_floor.
  assert (Hn : (inject_Z (Qfloor (t / q) + 1)
                <= inject_Z (Z.of_nat (Z.to_nat (Qfloor (t / q)) + 1)))%Q).
  { rewrite <- Zle_Qle. lia. }
  assert (Hlt : (t / q < inject_Z (Z.of_nat (Z.to_nat (Qfloor (t / q)) + 1)))%Q).
  { eapply Qlt_le_trans; eassumption. }
  apply (Qmult_lt_r _ _ q Hq) in Hlt.
  assert (Heq : (t / q * q == t)%Q) by (field; lra).
  rewrite Heq in Hlt. lra.
Qed.

(** The loop of the sampler finishes on a track of finite total distance,
    for every interval that passes the guard. *)
Lemma sample_loop_terminates (points : list Point) (interval : num) (t : Q) (fuel : nat) :
  total points = Fin t ->
  (interval >? 0)%num = true ->
  (enough_fuel points interval <= fuel)%nat ->
  exists out, sample_loop points interval (Fin t) fuel 0 [] = Done out.
Proof.
  intros Ht Hi Hf. unfold enough_fuel in Hf. rewrite Ht in Hf.
  destruct interval as [| | |q]; try discriminate.
  - (* +Infinity: one turn *)
    destruct fuel as [|[|fuel]]; [lia|lia|].
    destruct (0 <=? Fin t)%num eqn:Hle.
    + destruct (sample_loop_step points PInf (Fin t) 0 [] Hle)
        as [Hs|(p & Hs & _)]; rewrite Hs; [eauto|].
      eexists. apply sample_loop_exit. reflexivity.
    + eexists. apply sample_loop_exit. exact Hle.
  - assert (Hq : (0 < q)%Q) by (clear Hf; num_solve).
    apply (sample_loop_finishes points q t Hq (Z.to_nat (Qfloor (t / q)) + 1)).
    + apply enough_fuel_bound. exact Hq.
    + lia.
Qed.

(* ===================================================================== *)
(** ** Facts on tracks *)
(* ===================================================================== *)

Lemma nondecreasing_le_total (points : list Point) :
  nondecreasing points = true ->
  is_finite (total points) = true ->
  forall p, p ∈ points -> (cumulativeDistance p <=? total points)%num = true.
Proof.
  induction points as [|a [|b l] IH]; intros Hnd Hfin p Hp.
  - inversion Hp.
  - apply list_elem_of_singleton in Hp as ->. apply le_refl_finite. exact Hfin.
  - change (total (a :: b :: l)) with (total (b :: l)) in *.
    cbn [nondecreasing adjacent] in Hnd. apply andb_true_iff in Hnd as [Hab Hnd].
    assert (Hb : (cumulativeDistance b <=? total (b :: l))%num = true).
    { apply IH; [exact Hnd|exact Hfin|left]. }
    apply elem_of_cons in Hp as [->|Hp].
    + eapply le_trans; eassumption.
    + apply IH; assumption.
Qed.

Lemma increasing_snoc (l : list Point) (p : Point) :
  increasing l = true ->
  (forall s, last l = Some s -> (cumulativeDistance s <? cumulativeDistance p)%num = true) ->
  increasing (l ++ [p]) = true.
Proof.
  induction l as [|a [|b l] IH]; intros Hinc Hlast.
  - reflexivity.
  - cbn. rewrite (Hlast a) by reflexivity. reflexivity.
  - cbn [increasing adjacent app] in *. apply andb_true_iff in Hinc as [Hab Hinc].
    rewrite Hab. cbn [andb]. apply IH; [exact Hinc|].
    intros s Hs. apply Hlast. exact Hs.
Qed.

Lemma last_elem_of {A : Type} (l : list A) (a : A) : last l = Some a -> a ∈ l.
Proof.
  rewrite last_lookup. intros H. eapply list_elem_of_lookup_2, H.
Qed.

(** The sampler on a track that is not empty and an interval that passes
    the guard: the loop, then the last point unless it is there already. *)
Lemma samplePointsByDistance_unfold (fuel : nat) (points : list Point) (interval : num)
    (lastPoint : Point) :
  last points = Some lastPoint ->
  (interval <=? 0)%num = false ->
  samplePointsByDistance fuel points interval =
    match sample_loop points interval (cumulativeDistance lastPoint) fuel 0 [] with
    | Done sampled =>
        match last sampled with
        | None => Done (sampled ++ [lastPoint])
        | Some s =>
            if (cumulativeDistance s <? cumulativeDistance lastPoint)%num
            then Done (sampled ++ [lastPoint])
            else Done sampled
        end
    | Throw e => Throw e
    | OutOfFuel => OutOfFuel
    end.
Proof.
  intros Hlast Hi.
  assert (Hat := at_index_last points). rewrite Hlast in Hat.
  assert (Hlen : (length points =? 0)%nat = false)
    by (destruct points; [discriminate|reflexivity]).
  unfold samplePointsByDistance. rewrite Hlen, Hi. cbv zeta. cbn [orb].
  rewrite Hat. cbn [prop mbind outcome_bind].
  destruct (sample_loop _ _ _ _ _ _) as [sampled| |]; try reflexivity.
  cbn [prop mbind outcome_bind id].
  rewrite at_index_last. destruct sampled as [|s sampled]; [reflexivity|].
  change (length (s :: sampled) =? 0)%nat with false. cbn iota.
  destruct (last (s :: sampled)) eqn:E; [reflexivity|].
  apply last_None in E. discriminate.
Qed.

(** The sampler never throws. *)
Lemma samplePointsByDistance_no_throw (fuel : nat) (points : list Point) (interval : num)
    (e : js_error) :
  samplePointsByDistance fuel points interval <> Throw e.
Proof.
  destruct (last points) as [lastPoint|] eqn:Hlast.
  - destruct (interval <=? 0)%num eqn:Hi.
    + unfold samplePointsByDistance. rewrite Hi, orb_true_r. discriminate.
    + rewrite (samplePointsByDistance_unfold _ _ _ _ Hlast Hi).
      destruct (sample_loop _ _ _ _ _ _) as [sampled|e'|] eqn:Hloop.
      * destruct (last sampled); [destruct (_ <? _)%num|]; discriminate.
      * exfalso. eapply sample_loop_no_throw, Hloop.
      * discriminate.
  - apply last_None in Hlast as ->. discriminate.
Qed.

(** More fuel does not change the result of the sampler. *)
Lemma samplePointsByDistance_fuel_mono (fuel fuel' : nat) (points : list Point)
    (interval : num) (out : list Point) :
  (fuel <= fuel')%nat ->
  samplePointsByDistance fuel points interval = Done out ->
  samplePointsByDistance fuel' points interval = Done out.
Proof.
  intros Hf. destruct (last points) as [lastPoint|] eqn:Hlast.
  - destruct (interval <=? 0)%num eqn:Hi.
    + unfold samplePointsByDistance. rewrite Hi, orb_true_r. auto.
    + rewrite !(samplePointsByDistance_unfold _ _ _ _ Hlast Hi).
      destruct (sample_loop _ _ _ fuel _ _) as [sampled| |] eqn:Hloop; try discriminate.
      rewrite (sample_loop_fuel_mono _ _ _ _ _ _ _ _ Hf Hloop). auto.
  - apply last_None in Hlast as ->. auto.
Qed.

(* ===================================================================== *)
(** ** The distance sampler: properties *)
(* ===================================================================== *)

(** C5, as the code has it: when the track is empty, or the interval is
    zero or negative ([intervalMeters <= 0], which holds of [-Infinity] and
    does not hold of NaN), the sampler returns the points of the track
    unchanged, whatever the fuel, and does not fail. *)
Theorem sample_identity_fallback (fuel : nat) (points : list Point) (interval : num) :
  points = [] \/ (interval <=? 0)%num = true ->
  samplePointsByDistance fuel points interval = Done points.
Proof.
  intros [->|Hi]; [reflexivity|].
  unfold samplePointsByDistance. rewrite Hi, orb_true_r. reflexivity.
Qed.

Lemma sample_identity_fallback_witness :
  samplePointsByDistance 0 [at_distance 0; at_distance 500] (-1)
  = Done [at_distance 0; at_distance 500].
Proof.
  apply (sample_identity_fallback 0 [at_distance 0; at_distance 500] (-1)).
  right. reflexivity.
Defined.

(** C5 fails for NaN: NaN is not above 0, yet the guard [intervalMeters <= 0]
    does not hold of it, and the sampler keeps the first and the last point
    of a track of three (on the fuel 2, and so on any more fuel). *)
Lemma sample_NaN_interval :
  (NaN >? 0)%num = false
  /\ samplePointsByDistance 2 [at_distance 0; at_distance 500; at_distance 1200] NaN
     = Done [at_distance 0; at_distance 1200]
  /\ [at_distance 0; at_distance 1200]
     <> [at_distance 0; at_distance 500; at_distance 1200].
Proof. split; [reflexivity|]. split; [reflexivity|discriminate]. Qed.

(** C4, as the code has it: on a track whose first point lies at a
    cumulative distance of 0 or more that is strictly below the one of the
    last point, an interval strictly above the total distance yields exactly
    two points, the first and the last point of the track. *)
Theorem sample_interval_beyond_total (fuel : nat) (first : Point) (rest : list Point)
    (lastPoint : Point) (interval : num) :
  last (first :: rest) = Some lastPoint ->
  (0 <=? cumulativeDistance first)%num = true ->
  (cumulativeDistance first <? cumulativeDistance lastPoint)%num = true ->
  (interval >? cumulativeDistance lastPoint)%num = true ->
  samplePointsByDistance (2 + fuel) (first :: rest) interval = Done [first; lastPoint].
Proof.
  intros Hlast H0 Hfl Hi.
  assert (Hguard : (interval <=? 0)%num = false).
  { destruct first as [? ? a], lastPoint as [? ? b]. cbn in *. clear Hlast. num_solve. }
  rewrite (samplePointsByDistance_unfold _ _ _ _ Hlast Hguard).
  assert (Hfind : find (fun p => (cumulativeDistance p >=? 0)%num) (first :: rest)
                  = Some (0, first)).
  { unfold find. cbn [find_from]. unfold Num.ge. rewrite H0. reflexivity. }
  assert (Hle : (0 <=? cumulativeDistance lastPoint)%num = true).
  { destruct first as [? ? a], lastPoint as [? ? b]. cbn in *. clear Hlast Hfind. num_solve. }
  assert (Hnext : ((0 + interval)%num <=? cumulativeDistance lastPoint)%num = false).
  { destruct first as [? ? a], lastPoint as [? ? b]. cbn in *. clear Hlast Hfind. num_solve. }
  change (2 + fuel)%nat with (S (S fuel)).
  cbn [sample_loop]. rewrite Hle, Hfind.
  rewrite at_index_before_first. cbn [undefined orb].
  rewrite orb_true_r, Hnext. cbn [app last]. rewrite Hfl. reflexivity.
Qed.

Lemma sample_interval_beyond_total_witness :
  samplePointsByDistance 2 [at_distance 0; at_distance 500; at_distance 1200] 2000
  = Done [at_distance 0; at_distance 1200].
Proof.
  apply (sample_interval_beyond_total 0 (at_distance 0)
           [at_distance 500; at_distance 1200] (at_distance 1200) 2000);
    reflexivity.
Defined.

(** C4 fails on a track of one point: its total distance is 0, the interval
    1000 is above it, and the sampler returns that one point. *)
Lemma sample_single_point_track :
  (1000 >? total [at_distance 0])%num = true
  /\ samplePointsByDistance 2 [at_distance 0] 1000 = Done [at_distance 0]
  /\ length [at_distance 0] <> 2%nat.
Proof. split; [reflexivity|]. split; [reflexivity|discriminate]. Qed.

(** C7: on a track of three points at the cumulative distances 0, 500 and
    1200, with any coordinates, and the interval 1000, the sampler returns
    the first point as it is, a point at 1000 whose coordinates are those
    of the second point plus the ratio [(1000 - 500) / (1200 - 500)], which
    is 5/7, of the way to the third, and the third point as it is.  In any
    turn of the loop, a located point that lies at the offset, or that is
    the first point of the track, is emitted as it is. *)
Theorem sample_scenario_0_500_1200 :
  (forall (fuel : nat) (lat1 lon1 lat2 lon2 lat3 lon3 : num),
     let p1 := {| lat := lat1; lon := lon1; cumulativeDistance := 0 |} in
     let p2 := {| lat := lat2; lon := lon2; cumulativeDistance := 500 |} in
     let p3 := {| lat := lat3; lon := lon3; cumulativeDistance := 1200 |} in
     let ratio := ((1000 - 500) / (1200 - 500))%num in
     (ratio === Fin (5 # 7))%num = true
     /\ samplePointsByDistance (3 + fuel) [p1; p2; p3] 1000
        = Done [ p1;
                 {| lat := (lat2 + (lat3 - lat2) * ratio)%num;
                    lon := (lon2 + (lon3 - lon2) * ratio)%num;
                    cumulativeDistance := 1000 |};
                 p3 ])
  /\ (forall (points : list Point) (interval totalDistance offset : num)
             (fuel : nat) (sampled : list Point) (idx : Z) (nextPoint : Point),
        (offset <=? totalDistance)%num = true ->
        find (fun p => (cumulativeDistance p >=? offset)%num) points = Some (idx, nextPoint) ->
        (cumulativeDistance nextPoint === offset)%num = true \/ idx = 0 ->
        sample_loop points interval totalDistance (S fuel) offset sampled
        = sample_loop points interval totalDistance fuel (offset + interval)%num
            (sampled ++ [nextPoint])).
Proof.
  split.
  - intros. split; reflexivity.
  - intros points interval totalDistance offset fuel sampled idx nextPoint Hle Hfind Hcase.
    cbn [sample_loop]. rewrite Hle, Hfind.
    destruct Hcase as [Hseq| ->].
    + rewrite Hseq. reflexivity.
    + rewrite at_index_before_first, orb_true_r. reflexivity.
Qed.

Lemma sample_scenario_0_500_1200_witness :
  sample_loop [at_distance 0; at_distance 500; at_distance 1200] 1000 1200 1 0 []
  = sample_loop [at_distance 0; at_distance 500; at_distance 1200] 1000 1200 0
      (0 + 1000)%num ([] ++ [at_distance 0]).
Proof.
  apply (proj2 sample_scenario_0_500_1200
           [at_distance 0; at_distance 500; at_distance 1200] 1000 1200 0 0%nat []
           0 (at_distance 0)); [reflexivity|reflexivity|left; reflexivity].
Defined.

(** C6: on a track that is not empty, with cumulative distances that do not
    decrease and a finite total distance, and for every interval above 0,
    the sampler returns, on enough fuel, a sequence that is not empty and
    holds a point at the total distance of the track. *)
Theorem sample_includes_endpoint (fuel : nat) (points : list Point) (interval : num) :
  points <> [] ->
  nondecreasing points = true ->
  is_finite (total points) = true ->
  (interval >? 0)%num = true ->
  (enough_fuel points interval <= fuel)%nat ->
  exists out,
    samplePointsByDistance fuel points interval = Done out
    /\ out <> []
    /\ exists p, p ∈ out /\ (cumulativeDistance p === total points)%num = true.
Proof.
  intros Hne Hnd Hfin Hi Hfuel.
  destruct (last points) as [lastPoint|] eqn:Hlast;
    [|apply last_None in Hlast; contradiction].
  assert (Htotal : total points = cumulativeDistance lastPoint)
    by (unfold total; rewrite Hlast; reflexivity).
  assert (Hguard : (interval <=? 0)%num = false) by (clear Hfuel; num_solve).
  rewrite (samplePointsByDistance_unfold _ _ _ _ Hlast Hguard), <- Htotal.
  destruct (total points) as [| | |t] eqn:Ht; try discriminate.
  destruct (sample_loop_terminates points interval t fuel Ht Hi Hfuel) as [sampled Hloop].
  rewrite Hloop.
  (* every element lies at or below the total *)
  destruct (sample_loop_invariant points interval (Fin t)
              (fun _ sampled =>
                 Forall (fun p => (cumulativeDistance p <=? Fin t)%num = true) sampled))
    with (fuel := fuel) (cur := of_Z 0) (sampled := @nil Point) (out := sampled)
    as [_ Hall]; [|constructor|exact Hloop|].
  { intros cur acc p Hacc Hcur Hp. apply Forall_app. split; [exact Hacc|].
    constructor; [|constructor].
    destruct Hp as [[Hin Hseq]|[[Hhead Hge]|Heq]].
    - eapply le_trans; [apply seq_le, Hseq|exact Hcur].
    - rewrite <- Ht. apply nondecreasing_le_total; [exact Hnd|rewrite Ht; reflexivity|].
      destruct points; [discriminate|]. injection Hhead as ->. left.
    - rewrite Heq. exact Hcur. }
  assert (Hself : (cumulativeDistance lastPoint === Fin t)%num = true).
  { rewrite <- Htotal. cbn. q_reflect. reflexivity. }
  destruct (last sampled) as [s|] eqn:Hs.
  - destruct (cumulativeDistance s <? Fin t)%num eqn:Hlt.
    + eexists. split; [reflexivity|]. split; [destruct sampled; discriminate|].
      exists lastPoint. split; [|exact Hself].
      apply elem_of_app. right. left.
    + eexists. split; [reflexivity|]. split; [intros ->; discriminate|].
      exists s. split; [apply last_elem_of, Hs|].
      apply le_not_lt_seq.
      * eapply Forall_forall in Hall; [exact Hall|]. apply last_elem_of, Hs.
      * exact Hlt.
  - eexists. split; [reflexivity|]. split; [destruct sampled; discriminate|].
    exists lastPoint. split; [|exact Hself].
    apply elem_of_app. right. left.
Qed.

Lemma sample_includes_endpoint_witness :
  exists out,
    samplePointsByDistance 3 [at_distance 0; at_distance 500; at_distance 1200] 1000
    = Done out
    /\ out <> []
    /\ exists p, p ∈ out
         /\ (cumulativeDistance p
             === total [at_distance 0; at_distance 500; at_distance 1200])%num = true.
Proof.
  apply (sample_includes_endpoint 3
           [at_distance 0; at_distance 500; at_distance 1200] 1000);
    [discriminate|reflexivity|reflexivity|reflexivity|vm_compute; lia].
Defined.

(** C10: on a track, which starts at the cumulative distance 0, has
    cumulative distances that do not decrease and a finite total distance,
    and for every finite interval above 0, the cumulative distances of the
    points that the sampler returns are strictly increasing: no two of them
    lie at the same distance. *)
Theorem sample_strictly_increasing (fuel : nat) (first : Point) (rest : list Point)
    (interval : num) :
  (cumulativeDistance first === 0)%num = true ->
  nondecreasing (first :: rest) = true ->
  is_finite (total (first :: rest)) = true ->
  is_finite interval = true ->
  (interval >? 0)%num = true ->
  (enough_fuel (first :: rest) interval <= fuel)%nat ->
  exists out,
    samplePointsByDistance fuel (first :: rest) interval = Done out
    /\ increasing out = true.
Proof.
  intros Hfirst _ Hfin Hifin Hi Hfuel.
  set (points := first :: rest) in *.
  destruct (last points) as [lastPoint|] eqn:Hlast;
    [|apply last_None in Hlast; discriminate].
  assert (Htotal : total points = cumulativeDistance lastPoint)
    by (unfold total; rewrite Hlast; reflexivity).
  assert (Hguard : (interval <=? 0)%num = false) by (clear Hfuel; num_solve).
  rewrite (samplePointsByDistance_unfold _ _ _ _ Hlast Hguard), <- Htotal.
  destruct (total points) as [| | |t] eqn:Ht; try discriminate.
  destruct (sample_loop_terminates points interval t fuel Ht Hi Hfuel) as [sampled Hloop].
  rewrite Hloop.
  (* the elements are increasing and lie below the offset *)
  destruct (sample_loop_invariant points interval (Fin t)
              (fun cur sampled =>
                 (0 <=? cur)%num = true
                 /\ increasing sampled = true
                 /\ Forall (fun p => (cumulativeDistance p <? cur)%num = true) sampled))
    with (fuel := fuel) (cur := of_Z 0) (sampled := @nil Point) (out := sampled)
    as [cur' (_ & Hinc & _)]; [|repeat split; constructor|exact Hloop|].
  { intros cur acc p (Hcur0 & Hacc & Hbelow) Hcur Hp.
    assert (Hseq : (cumulativeDistance p === cur)%num = true).
    { destruct Hp as [[_ Hseq]|[[Hhead Hge]|Heq]]; [exact Hseq| |].
      - injection Hhead as <-. clear - Hfirst Hge Hcur0.
        destruct first as [? ? d]. cbn in *. num_solve.
      - rewrite Heq. clear - Hcur Hcur0. num_solve. }
    split; [|split].
    - clear - Hcur0 Hi Hifin. num_solve.
    - apply increasing_snoc; [exact Hacc|].
      intros s Hs. apply last_elem_of in Hs.
      eapply Forall_forall in Hbelow; [|exact Hs].
      destruct s as [? ? ds], p as [? ? dp]. cbn in *.
      clear - Hbelow Hseq. num_solve.
    - apply Forall_app. split.
      + eapply Forall_impl; [exact Hbelow|].
        intros [? ? dx] Hx. cbn in *.
        clear - Hx Hi Hifin Hcur Hcur0. num_solve.
      + constructor; [|constructor].
        destruct p as [? ? dp]. cbn in *.
        clear - Hseq Hi Hifin Hcur Hcur0. num_solve. }
  destruct (last sampled) as [s|] eqn:Hs.
  - destruct (cumulativeDistance s <? Fin t)%num eqn:Hlt.
    + eexists. split; [reflexivity|].
      apply increasing_snoc; [exact Hinc|].
      intros s' Hs'. rewrite Hs in Hs'. injection Hs' as <-.
      rewrite <- Htotal. exact Hlt.
    + eexists. split; [reflexivity|exact Hinc].
  - apply last_None in Hs as ->. eexists. split; reflexivity.
Qed.

Lemma sample_strictly_increasing_witness :
  exists out,
    samplePointsByDistance 3 [at_distance 0; at_distance 500; at_distance 1200] 1000
    = Done out
    /\ increasing out = true.
Proof.
  apply (sample_strictly_increasing 3 (at_distance 0)
           [at_distance 500; at_distance 1200] 1000);
    [reflexivity|reflexivity|reflexivity|reflexivity|reflexivity|vm_compute; lia].
Defined.

(* ===================================================================== *)
(** ** The track loader: properties *)
(* ===================================================================== *)

Section LoaderFacts.

Variable LatLng : Type.
Variable latLng : num -> num -> result LatLng.
Variable distanceTo : LatLng -> LatLng -> num.

(** The loader only appends to the points it has. *)
Lemma processGPX_from_prefix (trackPoints : list (num * num)) :
  forall index cumDist prevCoords points out,
    processGPX_from LatLng latLng distanceTo trackPoints index cumDist prevCoords points
    = Done out ->
    exists more, out = points ++ more.
Proof.
  induction trackPoints as [|[la lo] rest IH]; intros index cumDist prevCoords points out H.
  - injection H as <-. exists []. symmetry. apply app_nil_r.
  - cbn [processGPX_from] in H.
    destruct (latLng la lo) as [coords|e]; [|discriminate].
    cbn [call mbind outcome_bind] in H.
    destruct (0 <? index)%nat.
    + destruct prevCoords as [prev|]; [|discriminate].
      cbn [prop mbind outcome_bind] in H.
      apply IH in H as [more ->]. rewrite <- app_assoc. eauto.
    + cbn [mbind outcome_bind] in H.
      apply IH in H as [more ->]. rewrite <- app_assoc. eauto.
Qed.

(** A track that the loader returns starts at the cumulative distance 0. *)
Lemma processGPX_first_distance (trackPoints : list (num * num)) (p : Point)
    (points : list Point) :
  processGPX LatLng latLng distanceTo trackPoints = Done (p :: points) ->
  cumulativeDistance p = 0.
Proof.
  unfold processGPX. destruct trackPoints as [|[la lo] rest]; [discriminate|].
  cbn [processGPX_from]. destruct (latLng la lo) as [coords|e]; [|discriminate].
  cbn [call mbind outcome_bind Nat.ltb Nat.leb app].
  intros H. apply processGPX_from_prefix in H as [more H].
  injection H as -> _. reflexivity.
Qed.

(** C2, as the code has it: on the empty sequence of points the loader does
    not fail; it returns the empty sequence of track points. *)
Theorem processGPX_empty :
  processGPX LatLng latLng distanceTo [] = Done [].
Proof. reflexivity. Qed.

End LoaderFacts.

(** C2 fails: on the empty input the loader throws nothing. *)
Lemma processGPX_empty_no_error :
  ~ exists e, processGPX (num * num) plane_latLng plane_distanceTo [] = Throw e.
Proof. intros [e H]. discriminate H. Qed.

(* ===================================================================== *)
(** ** Binary64 arithmetic: the error of rounding *)
(* ===================================================================== *)

Section Binary64Facts.

Local Open Scope Q_scope.

(** Powers of 2. *)
Lemma pow2_pos (e : Z) : 0 < 2 ^ e.
Proof. apply Qpower_0_lt. reflexivity. Qed.

Lemma pow2_add (a b : Z) : 2 ^ (a + b) == 2 ^ a * 2 ^ b.
Proof. apply Qpower_plus. discriminate. Qed.

Lemma pow2_Z (n : Z) : (0 <= n)%Z -> inject_Z (2 ^ n) == 2 ^ n.
Proof. intros Hn. apply (Zpower_Qpower 2 n Hn). Qed.

(** The leading bit: [2^e <= q < 2^(e+1)] for the exponent [e] that [ilog2]
    gives. *)
Lemma ilog2_le (q : Q) : 0 < q -> 2 ^ Binary64.ilog2 q <= q.
Proof.
  intros Hq. unfold Binary64.ilog2. cbv zeta.
  destruct (Qle_bool _ q) eqn:E; [apply Qle_bool_iff; exact E|]. clear E.
  destruct q as [n d]. cbn [Qnum Qden].
  assert (Hn : (0 < n)%Z) by (unfold Qlt in Hq; cbn in Hq; lia).
  pose proof (Z.log2_spec n Hn) as [Hn1 _].
  pose proof (Z.log2_spec (Zpos d) ltac:(lia)) as [_ Hd2].
  pose proof (Z.log2_nonneg n) as Hln.
  pose proof (Z.log2_nonneg (Zpos d)) as Hld.
  replace (Z.log2 n - Z.log2 (Z.pos d) - 1)%Z
    with (Z.log2 n + - (Z.succ (Z.log2 (Z.pos d))))%Z by lia.
  rewrite pow2_add, Qpower_opp, <- !pow2_Z by lia.
  rewrite (Qmake_Qdiv n d).
  rewrite Zle_Qle in Hn1. rewrite Zlt_Qlt in Hd2.
  assert (Hd0 : 0 < inject_Z (Zpos d)) by (change 0 with (inject_Z 0); rewrite <- Zlt_Qlt; lia).
  assert (Hn0 : 0 < inject_Z n) by (change 0 with (inject_Z 0); rewrite <- Zlt_Qlt; lia).
  set (A := inject_Z (2 ^ Z.log2 n)) in *.
  set (B := inject_Z (2 ^ Z.succ (Z.log2 (Z.pos d)))) in *.
  set (N := inject_Z n) in *. set (D := inject_Z (Zpos d)) in *.
  assert (HA : 0 < A).
  { unfold A. change 0 with (inject_Z 0). rewrite <- Zlt_Qlt. apply Z.pow_pos_nonneg; lia. }
  apply Qle_shift_div_l; [exact Hd0|].
  assert (H : A * D <= N * B) by nra.
  assert (HB : ~ B == 0) by lra.
  assert (E : A * / B * D == (A * D) / B) by (field; exact HB).
  rewrite E.
  apply Qle_shift_div_r; [lra|exact H].
Qed.

Lemma ilog2_lt (q : Q) : 0 < q -> q < 2 ^ (Binary64.ilog2 q + 1).
Proof.
  intros Hq. unfold Binary64.ilog2. cbv zeta.
  destruct (Qle_bool _ q) eqn:E.
  2:{ apply Qle_bool_false in E.
      replace (Z.log2 (Qnum q) - Z.log2 (Z.pos (Qden q)) - 1 + 1)%Z
        with (Z.log2 (Qnum q) - Z.log2 (Z.pos (Qden q)))%Z by lia.
      exact E. }
  clear E. destruct q as [n d]. cbn [Qnum Qden].
  assert (Hn : (0 < n)%Z) by (unfold Qlt in Hq; cbn in Hq; lia).
  pose proof (Z.log2_spec n Hn) as [_ Hn2].
  pose proof (Z.log2_spec (Zpos d) ltac:(lia)) as [Hd1 _].
  pose proof (Z.log2_nonneg n) as Hln.
  pose proof (Z.log2_nonneg (Zpos d)) as Hld.
  replace (Z.log2 n - Z.log2 (Z.pos d) + 1)%Z
    with (Z.succ (Z.log2 n) + - Z.log2 (Z.pos d))%Z by lia.
  rewrite pow2_add, Qpower_opp, <- !pow2_Z by lia.
  rewrite (Qmake_Qdiv n d).
  rewrite Zlt_Qlt in Hn2. rewrite Zle_Qle in Hd1.
  assert (Hd0 : 0 < inject_Z (Zpos d)) by (change 0 with (inject_Z 0); rewrite <- Zlt_Qlt; lia).
  assert (Hn0 : 0 < inject_Z n) by (change 0 with (inject_Z 0); rewrite <- Zlt_Qlt; lia).
  set (A := inject_Z (2 ^ Z.succ (Z.log2 n))) in *.
  set (B := inject_Z (2 ^ Z.log2 (Z.pos d))) in *.
  set (N := inject_Z n) in *. set (D := inject_Z (Zpos d)) in *.
  assert (HB : 0 < B).
  { unfold B. change 0 with (inject_Z 0). rewrite <- Zlt_Qlt. apply Z.pow_pos_nonneg; lia. }
  apply Qlt_shift_div_r; [exact Hd0|].
  assert (H : N * B < A * D) by nra.
  assert (HB0 : ~ B == 0) by lra.
  assert (E : A * / B * D == (A * D) / B) by (field; exact HB0).
  rewrite E.
  apply Qlt_shift_div_l; [lra|exact H].
Qed.

(** The nearest whole number is at most one half away. *)
Lemma nearest_even_close (m : Q) :
  - (1 # 2) <= inject_Z (Binary64.nearest_even m) - m <= 1 # 2.
Proof.
  unfold Binary64.nearest_even. cbv zeta.
  pose proof (Qfloor_le m) as Hlo. pose proof (Qlt_floor m) as Hhi.
  rewrite inject_Z_plus in Hhi. change (inject_Z 1) with 1 in Hhi.
  set (f := Qfloor m) in *.
  destruct (Qcompare_spec (m - inject_Z f) (1 # 2)) as [H|H|H].
  - destruct (Z.even f); rewrite ?inject_Z_plus; change (inject_Z 1) with 1; lra.
  - lra.
  - rewrite inject_Z_plus. change (inject_Z 1) with 1. lra.
Qed.

Lemma Qabs_bounds (x y : Q) : Qabs x <= y <-> - y <= x /\ x <= y.
Proof. apply Qabs_Qle_condition. Qed.

(** The value that [round] gives to a rational other than 0, before the
    test for overflow. *)
Lemma scaled_error (q : Q) :
  ~ q == 0 ->
  let e := Z.max (Binary64.ilog2 (Qabs q) - 52) (-1074) in
  let r := inject_Z (Binary64.nearest_even (q / 2 ^ e)) * 2 ^ e in
  Qabs (r - q) <= Qabs q * Binary64.unit_roundoff + Binary64.tiny.
Proof.
  intros Hq e r.
  assert (Hpos : 0 < Qabs q).
  { destruct (Qlt_le_dec 0 (Qabs q)) as [H|H]; [exact H|].
    exfalso. apply Hq. apply Qabs_bounds in H. lra. }
  pose proof (ilog2_le (Qabs q) Hpos) as Hg.
  set (g := Binary64.ilog2 (Qabs q)) in *.
  pose proof (pow2_pos e) as Hp.
  pose proof (nearest_even_close (q / 2 ^ e)) as Hm.
  assert (Hhalf : 2 ^ e * (1 # 2) <= Qabs q * Binary64.unit_roundoff + Binary64.tiny).
  { assert (Htiny : 0 < Binary64.tiny) by reflexivity.
    destruct (Z.max_spec (g - 52) (-1074)) as [[_ He]|[_ He]]; fold e in He; rewrite He.
    - assert (E : 2 ^ (-1074) * (1 # 2) == Binary64.tiny) by reflexivity.
      rewrite E. unfold Binary64.unit_roundoff. lra.
    - replace (g - 52)%Z with (g + -52)%Z by lia. rewrite pow2_add.
      assert (E : 2 ^ (-52) * (1 # 2) == Binary64.unit_roundoff) by reflexivity.
      set (G := 2 ^ g) in *. set (c := 2 ^ (-52)) in *.
      assert (E' : G * c * (1 # 2) == G * Binary64.unit_roundoff).
      { rewrite <- E. ring. }
      rewrite E'. unfold Binary64.unit_roundoff in *. nra. }
  assert (E : r - q == (inject_Z (Binary64.nearest_even (q / 2 ^ e)) - q / 2 ^ e) * 2 ^ e).
  { unfold r. field. lra. }
  rewrite E.
  set (d := inject_Z (Binary64.nearest_even (q / 2 ^ e)) - q / 2 ^ e) in *.
  set (p := 2 ^ e) in *.
  apply Qabs_bounds. split; nra.
Qed.

Lemma no_overflow : 2 ^ 1000 * (1 + Binary64.unit_roundoff) + Binary64.tiny < 2 ^ 1024.
Proof. vm_compute. reflexivity. Qed.

(** Rounding a rational of moderate size gives a finite number, off by at
    most the unit roundoff in relative terms, or by [Binary64.tiny] near 0. *)
Lemma round_error (q : Q) :
  Qabs q <= 2 ^ 1000 ->
  exists r, Binary64.round q = Fin r
            /\ Qabs (r - q) <= Qabs q * Binary64.unit_roundoff + Binary64.tiny.
Proof.
  intros Hsize. unfold Binary64.round.
  assert (Hnz : ~ q == 0 ->
                exists r,
                  (let e := Z.max (Binary64.ilog2 (Qabs q) - 52) (-1074) in
                   let r := inject_Z (Binary64.nearest_even (q / 2 ^ e)) * 2 ^ e in
                   if Qle_bool (2 ^ 1024) (Qabs r)
                   then inf_of (Qle_bool 0 q) else Fin (Qred r)) = Fin r
                  /\ Qabs (r - q) <= Qabs q * Binary64.unit_roundoff + Binary64.tiny).
  { intros Hq. pose proof (scaled_error q Hq) as Herr. cbv zeta in *.
    set (r := inject_Z _ * _) in *.
    destruct (Qle_bool (2 ^ 1024) (Qabs r)) eqn:Eover.
    - exfalso. apply Qle_bool_iff in Eover.
      pose proof no_overflow as Hno.
      pose proof (Qabs_nonneg q) as Ha.
      assert (Hqa : - Qabs q <= q /\ q <= Qabs q) by (apply Qabs_bounds, Qle_refl).
      apply Qabs_bounds in Herr.
      assert (Hr : Qabs r <= Qabs q + (Qabs q * Binary64.unit_roundoff + Binary64.tiny)).
      { apply Qabs_bounds. lra. }
      set (M := 2 ^ 1000) in *. set (W := 2 ^ 1024) in *. set (a := Qabs q) in *.
      unfold Binary64.unit_roundoff in *. lra.
    - exists (Qred r). split; [reflexivity|]. rewrite Qred_correct. exact Herr. }
  destruct (sgn q) eqn:Es.
  - apply sgn_Eq in Es. exists 0. split; [reflexivity|].
    rewrite Es. assert (Htiny : 0 < Binary64.tiny) by reflexivity.
    change (Qabs (0 - 0)) with 0. change (Qabs 0) with 0. unfold Binary64.unit_roundoff. lra.
  - apply Hnz. apply sgn_Lt in Es. exact (Qlt_not_eq _ _ Es).
  - apply Hnz. apply sgn_Gt in Es. intros H.
    apply (Qlt_not_eq _ _ Es). symmetry. exact H.
Qed.

(** The same, from a bound on the size of the number. *)
Lemma round_within (x bound : Q) :
  Qabs x <= bound ->
  bound <= 2 ^ 1000 ->
  exists r, Binary64.round x = Fin r
            /\ - (bound * Binary64.unit_roundoff + Binary64.tiny) <= r - x
            /\ r - x <= bound * Binary64.unit_roundoff + Binary64.tiny.
Proof.
  intros Hx Hb.
  destruct (round_error x) as (r & Hr & Herr); [eapply Qle_trans; eassumption|].
  exists r. split; [exact Hr|].
  apply Qabs_bounds in Herr. pose proof (Qabs_nonneg x).
  unfold Binary64.unit_roundoff in *. lra.
Qed.

(** A division by a number above 0 is the rounded quotient. *)
Lemma div_pos (x y : Q) :
  0 < y -> Binary64.div (Fin x) (Fin y) = Binary64.round (x / y).
Proof.
  intros Hy. unfold Binary64.div, Num.div. rewrite (proj2 (sgn_Gt y) Hy). reflexivity.
Qed.

(** The four operations of the time of a point, each of them rounded: for
    a start and a travel time of at most [span] milliseconds the number
    handed to [new Date] is within a hundredth of a millisecond of the
    exact instant. *)
Lemma time_error (start : Z) (d v : Q) :
  0 <= d ->
  2 ^ (-1000) <= v ->
  v <= 2 ^ 900 ->
  Qabs (inject_Z start) <= 8640000000000 ->
  d / 1000 / v * 3600000 <= 8640000000000 ->
  exists s,
    (getTime (ValidDate start) + (Fin d / of_Z 1000 / Fin v) * of_Z 3600000)%b64 = Fin s
    /\ Qabs (s - exact_time start d v) <= 1 # 100.
Proof.
  intros Hd Hvmin Hvmax Hstart Htravel.
  assert (Hv : 0 < v) by (pose proof (pow2_pos (-1000)); lra).
  assert (Hvne : ~ v == 0) by (intros E; rewrite E in Hv; exact (Qlt_irrefl 0 Hv)).
  unfold exact_time. unfold getTime, of_Z.
  change (inject_Z 1000) with 1000. change (inject_Z 3600000) with 3600000.
  assert (HA0 : 0 <= d / 1000) by (apply Qle_shift_div_l; [reflexivity|lra]).
  set (A := d / 1000) in *.
  assert (HW0 : 0 <= A / v) by (apply Qle_shift_div_l; [exact Hv|lra]).
  assert (HA : A == A / v * v) by (field; exact Hvne).
  set (W := A / v) in *.
  assert (HWmax : W <= 2400000) by lra.
  assert (Htiny : 0 < Binary64.tiny) by reflexivity.
  assert (Htiny' : Binary64.tiny * 2 ^ 1000 <= 1 # 1000000000000000000000) by (vm_compute; discriminate).
  assert (Htiny2 : Binary64.tiny <= 1 # 1000000000000000000000) by (vm_compute; discriminate).
  assert (Hbig : 2400000 * 2 ^ 900 <= 2 ^ 1000) by (vm_compute; discriminate).
  assert (Hbig' : 1000000000000000000000000000000 <= 2 ^ 1000) by (vm_compute; discriminate).
  assert (Hinv : Binary64.tiny <= Binary64.tiny * 2 ^ 1000 * v).
  { assert (E : 2 ^ 1000 * 2 ^ (-1000) == 1) by reflexivity.
    set (V := 2 ^ 1000) in *. set (V' := 2 ^ (-1000)) in *.
    assert (1 <= V * v) by (assert (0 < V) by (apply pow2_pos); nra).
    nra. }
  set (eta' := Binary64.tiny * 2 ^ 1000) in *.
  set (M := 2 ^ 1000) in *.
  assert (HAmax : A <= M).
  { set (V := 2 ^ 900) in *. nra. }
  clear Hvmin Hvmax Hbig.
  (* the distance in kilometers *)
  destruct (round_within A A) as (a & Ea & Ha1 & Ha2);
    [apply Qabs_bounds; lra|exact HAmax|].
  rewrite (div_pos d 1000) by reflexivity. fold A. rewrite Ea.
  (* the hours *)
  assert (Hd1 : - (W * Binary64.unit_roundoff + eta') <= a / v - W
                /\ a / v - W <= W * Binary64.unit_roundoff + eta').
  { assert (E : a / v - W == (a - A) / v) by (unfold W; field; exact Hvne).
    rewrite E. split.
    - apply Qle_shift_div_l; [exact Hv|]. unfold Binary64.unit_roundoff in *. nra.
    - apply Qle_shift_div_r; [exact Hv|]. unfold Binary64.unit_roundoff in *. nra. }
  destruct (round_within (a / v) (2400000 * (1 + Binary64.unit_roundoff) + eta'))
    as (b & Eb & Hb1 & Hb2).
  { apply Qabs_bounds. unfold Binary64.unit_roundoff in *. lra. }
  { unfold Binary64.unit_roundoff. fold M. lra. }
  rewrite (div_pos a v Hv), Eb.
  (* the milliseconds *)
  set (Bb := 2400000 * (1 + Binary64.unit_roundoff) + eta') in *.
  destruct (round_within (b * 3600000)
              ((Bb * (1 + Binary64.unit_roundoff) + Binary64.tiny) * 3600000))
    as (c & Ec & Hc1 & Hc2).
  { apply Qabs_bounds. unfold Bb, Binary64.unit_roundoff in *. lra. }
  { unfold Bb, Binary64.unit_roundoff. fold M. lra. }
  change (Binary64.mul (Fin b) (Fin 3600000)) with (Binary64.round (b * 3600000)).
  rewrite Ec.
  (* the time *)
  set (Cb := (Bb * (1 + Binary64.unit_roundoff) + Binary64.tiny) * 3600000) in *.
  apply Qabs_bounds in Hstart.
  destruct (round_within (inject_Z start + c)
              (8640000000000 + (Cb * (1 + Binary64.unit_roundoff) + Binary64.tiny)))
    as (s & Es & Hs1 & Hs2).
  { apply Qabs_bounds. unfold Cb, Bb, Binary64.unit_roundoff in *. lra. }
  { unfold Cb, Bb, Binary64.unit_roundoff. fold M. lra. }
  change (Binary64.add (Fin (inject_Z start)) (Fin c))
    with (Binary64.round (inject_Z start + c)).
  rewrite Es. exists s. split; [reflexivity|].
  apply Qabs_bounds. unfold Cb, Bb, Binary64.unit_roundoff in *. lra.
Qed.

(** Whole numbers are left as they are. *)
Lemma nearest_even_whole (m : Q) (k : Z) :
  m == inject_Z k -> Binary64.nearest_even m = k.
Proof.
  intros E. unfold Binary64.nearest_even. cbv zeta.
  assert (Hf : Qfloor m = k) by (rewrite E; apply Qfloor_Z).
  rewrite Hf.
  destruct (Qcompare_spec (m - inject_Z k) (1 # 2)) as [H|H|H];
    [exfalso; lra|reflexivity|exfalso; lra].
Qed.

Lemma Qred_whole (q : Q) (z : Z) : q == inject_Z z -> Qred q = inject_Z z.
Proof.
  intros E. rewrite (Qred_complete _ _ E).
  apply Qcanon.Qred_identity. cbn. apply Z.gcd_1_r.
Qed.

(** A whole number up to [2^53] is a double: rounding leaves it as it is. *)
Lemma round_whole (q : Q) (z : Z) :
  q == inject_Z z -> (Z.abs z <= 2 ^ 53)%Z -> Binary64.round q = of_Z z.
Proof.
  intros Hqz Hz. unfold Binary64.round, of_Z.
  assert (Hnz : z <> 0%Z ->
                (let e := Z.max (Binary64.ilog2 (Qabs q) - 52) (-1074) in
                 let r := inject_Z (Binary64.nearest_even (q / 2 ^ e)) * 2 ^ e in
                 if Qle_bool (2 ^ 1024) (Qabs r)
                 then inf_of (Qle_bool 0 q) else Fin (Qred r))
                = Fin (inject_Z z)).
  { intros Hne. cbv zeta.
    assert (Habs : Qabs q == inject_Z (Z.abs z)) by (rewrite Hqz; reflexivity).
    assert (Hpos : 0 < Qabs q).
    { rewrite Habs. change 0 with (inject_Z 0). rewrite <- Zlt_Qlt. lia. }
    pose proof (ilog2_le _ Hpos) as Hg.
    set (g := Binary64.ilog2 (Qabs q)) in *.
    assert (Hg53 : (g <= 53)%Z).
    { apply (Qpower_le_compat_l_inv 2); [|reflexivity].
      eapply Qle_trans; [exact Hg|]. rewrite Habs, <- pow2_Z by lia.
      rewrite <- Zle_Qle. exact Hz. }
    set (e := Z.max (g - 52) (-1074)).
    assert (Hk : exists k, q / 2 ^ e == inject_Z k).
    { destruct (Z.le_gt_cases e 0) as [He|He].
      - exists (z * 2 ^ (- e))%Z. rewrite Hqz, inject_Z_mult, pow2_Z by lia.
        rewrite Qpower_opp. reflexivity.
      - assert (He1 : e = 1%Z) by lia.
        assert (Hg1 : g = 53%Z) by lia.
        rewrite Hg1, Habs, <- pow2_Z, <- Zle_Qle in Hg by lia.
        rewrite He1. exists (z / 2)%Z.
        assert (Hz2 : z = (2 * (z / 2))%Z).
        { assert (Z.abs z = 2 ^ 53)%Z by lia.
          apply Z.div_exact; [lia|].
          destruct (Z.abs_spec z) as [[_ Hs]|[_ Hs]].
          - rewrite <- Hs, H. reflexivity.
          - replace z with (- Z.abs z)%Z by lia. rewrite H. reflexivity. }
        rewrite Hqz. rewrite Hz2 at 1. rewrite inject_Z_mult. field. }
    destruct Hk as [k Hk].
    rewrite (nearest_even_whole _ k Hk).
    assert (Er : inject_Z k * 2 ^ e == inject_Z z).
    { rewrite <- Hqz, <- Hk. field. pose proof (pow2_pos e). lra. }
    assert (Hover : Qle_bool (2 ^ 1024) (Qabs (inject_Z k * 2 ^ e)) = false).
    { apply Qle_bool_false. rewrite Er. change (Qabs (inject_Z z)) with (inject_Z (Z.abs z)).
      eapply Qle_lt_trans; [rewrite <- Zle_Qle; exact Hz|]. reflexivity. }
    rewrite Hover. f_equal. apply Qred_whole, Er. }
  destruct (Z.eq_dec z 0%Z) as [->|Hne].
  - assert (Es : sgn q = Eq) by (apply sgn_Eq; exact Hqz). rewrite Es. reflexivity.
  - destruct (sgn q) eqn:Es.
    + apply sgn_Eq in Es. exfalso. apply Hne.
      rewrite Hqz in Es. unfold Qeq in Es. cbn in Es. lia.
    + apply Hnz, Hne.
    + apply Hnz, Hne.
Qed.

(** Binary64 adds two whole numbers without rounding where the sum is at
    most [2^53] in size. *)
Lemma add_whole (a b : Z) :
  (Z.abs (a + b) <= 2 ^ 53)%Z -> (of_Z a + of_Z b)%b64 = of_Z (a + b).
Proof.
  intros H. unfold Binary64.add, of_Z. cbn [Num.add Binary64.rounded].
  apply round_whole; [|exact H]. rewrite inject_Z_plus. reflexivity.
Qed.

(** Doubles that are known: 0.1, the sum of 0.1 and 0.2, which is
    0.30000000000000004, the largest double and the overflow above it, and
    the underflow to 0 at half the smallest double. *)
Lemma round_examples :
  Binary64.round (1 # 10) = Fin (3602879701896397 # 36028797018963968)
  /\ (Binary64.round (1 # 10) + Binary64.round (2 # 10))%b64
     = Fin (1351079888211149 # 4503599627370496)
  /\ Binary64.round (2 ^ 1024 - 2 ^ 970 - 1) = Fin (2 ^ 1024 - 2 ^ 971)
  /\ Binary64.round (2 ^ 1024 - 2 ^ 970) = PInf
  /\ Binary64.round (2 ^ (-1075)) = Fin 0
  /\ Binary64.round (3 * 2 ^ (-1075)) = Fin (Qred (2 ^ (-1073))).
Proof. repeat split; vm_compute; reflexivity. Qed.

End Binary64Facts.

(* ===================================================================== *)
(** ** The time projector: properties *)
(* ===================================================================== *)

Lemma timedPoint_lat (startTime : Date) (avgSpeed : num) (point : Point) :
  get (timedPoint startTime avgSpeed point) "lat" = VNum (lat point).
Proof. reflexivity. Qed.

Lemma timedPoint_lon (startTime : Date) (avgSpeed : num) (point : Point) :
  get (timedPoint startTime avgSpeed point) "lon" = VNum (lon point).
Proof. reflexivity. Qed.

Lemma timedPoint_time (startTime : Date) (avgSpeed : num) (point : Point) :
  get (timedPoint startTime avgSpeed point) "time"
  = VDate (newDate (getTime startTime
                    + (cumulativeDistance point / 1000 / avgSpeed) * 3600000)%num).
Proof. reflexivity. Qed.

Lemma timedPoint_cumulativeDistance (startTime : Date) (avgSpeed : num) (point : Point) :
  timedPoint startTime avgSpeed point !! "cumulativeDistance" = None.
Proof. reflexivity. Qed.

(** A weather point made from a timed point has no [cumulativeDistance]
    either, and its card shows the distance NaN. *)
Lemma card_distance_of_timedPoint (startTime : Date) (avgSpeed : num) (point : Point)
    (sample : value * value * value) :
  card_distance_km (card (weatherPoint (timedPoint startTime avgSpeed point) sample)) = NaN.
Proof. destruct sample as [[temp wind] code]. reflexivity. Qed.

(** C1, on the code: the objects that [calculateTimedPoints] returns keep
    [lat] and [lon] of the points and add [time], and they have no
    [cumulativeDistance]: reading it gives [undefined], and the card that
    [displayWeather] makes of a weather point spread from such an object
    shows the distance NaN. *)
Theorem calculateTimedPoints_drops_cumulativeDistance (points : list Point)
    (startTime : Date) (avgSpeed : num) :
  exists out,
    calculateTimedPoints points startTime avgSpeed = Done out
    /\ Forall2 (fun point o =>
                  get o "lat" = VNum (lat point)
                  /\ get o "lon" = VNum (lon point)
                  /\ o !! "cumulativeDistance" = None
                  /\ get o "cumulativeDistance" = VUndefined
                  /\ forall sample,
                       card_distance_km (card (weatherPoint o sample)) = NaN)
               points out.
Proof.
  eexists. split; [reflexivity|].
  apply Forall2_fmap_r, Forall_Forall2_diag, Forall_forall.
  intros point _. repeat split. apply card_distance_of_timedPoint.
Qed.

(** A division by a speed of zero is never finite, and neither is what
    follows from it. *)
Lemma zero_speed_time (startTime : Date) (distance avgSpeed : num) :
  (avgSpeed === 0)%num = true ->
  newDate (getTime startTime + (distance / 1000 / avgSpeed) * 3600000)%num = InvalidDate.
Proof.
  intros Hz. destruct avgSpeed as [| | |v]; try discriminate.
  cbn in Hz. apply Qeq_bool_iff in Hz.
  assert (Hv : sgn v = Eq) by (apply sgn_Eq; exact Hz).
  destruct startTime as [|ms], distance as [| | |d];
    unfold Num.div, Num.mul, Num.add, getTime, Num.of_Z;
    change (sgn (inject_Z 1000)) with Gt; cbv iota; rewrite ?Hv; try reflexivity;
    repeat match goal with
           | |- context [match sgn ?x with _ => _ end] => destruct (sgn x)
           end; reflexivity.
Qed.

(** C3, as the code has it: [calculateTimedPoints] does not fail, whatever
    the average speed: it returns as many objects as there are points, and
    for the speed 0 the time of each of them is an invalid date. *)
Theorem calculateTimedPoints_never_fails (points : list Point) (startTime : Date)
    (avgSpeed : num) :
  exists out,
    calculateTimedPoints points startTime avgSpeed = Done out
    /\ length out = length points
    /\ ((avgSpeed === 0)%num = true ->
        Forall (fun o => get o "time" = VDate InvalidDate) out).
Proof.
  eexists. split; [reflexivity|]. split; [apply length_map|].
  intros Hz. apply Forall_fmap, Forall_forall. intros point _.
  cbn [compose]. rewrite timedPoint_time, zero_speed_time by exact Hz. reflexivity.
Qed.

Lemma calculateTimedPoints_never_fails_witness :
  exists out,
    calculateTimedPoints [at_distance 0; at_distance 15000] (ValidDate 0) 0 = Done out
    /\ length out = 2%nat
    /\ Forall (fun o => get o "time" = VDate InvalidDate) out.
Proof.
  destruct (calculateTimedPoints_never_fails
              [at_distance 0; at_distance 15000] (ValidDate 0) 0)
    as (out & Hout & Hlen & Htime).
  exists out. split; [exact Hout|]. split; [exact Hlen|].
  apply Htime. reflexivity.
Defined.

(** C3 fails: with the average speed 0 the projector throws nothing; it
    returns one object, whose time is an invalid date. *)
Lemma calculateTimedPoints_zero_speed :
  (~ exists e, calculateTimedPoints [at_distance 15000] (ValidDate 0) 0 = Throw e)
  /\ exists o, calculateTimedPoints [at_distance 15000] (ValidDate 0) 0 = Done [o]
               /\ get o "time" = VDate InvalidDate.
Proof.
  split; [intros [e H]; discriminate H|].
  eexists. split; reflexivity.
Qed.

(** Truncation toward zero stays within one unit, on the side of zero. *)
Lemma Qtrunc_close (q : Q) :
  (Qabs (q - inject_Z (Qtrunc q)) < 1)%Q
  /\ (Qabs (inject_Z (Qtrunc q)) <= Qabs q)%Q.
Proof.
  destruct q as [n d]. unfold Qtrunc. cbn [Qnum Qden].
  pose proof (Z.quot_rem' n (Zpos d)) as Hqr.
  pose proof (Z.rem_bound_abs n (Zpos d) ltac:(lia)) as Hrem.
  assert (Hpos : 0 <= n -> 0 <= Z.rem n (Zpos d)) by (intros; apply Z.rem_nonneg; lia).
  assert (Hneg : n <= 0 -> Z.rem n (Zpos d) <= 0) by (intros; apply Z.rem_nonpos; lia).
  assert (Hqpos : 0 <= n -> 0 <= Z.quot n (Zpos d)) by (intros; apply Z.quot_pos; lia).
  assert (Hqneg : n <= 0 -> Z.quot n (Zpos d) <= 0).
  { intros Hn. rewrite <- (Z.opp_involutive n), Z.quot_opp_l by lia.
    pose proof (Z.quot_pos (- n) (Zpos d)). lia. }
  remember (Z.quot n (Zpos d)) as t eqn:Et.
  remember (Z.rem n (Zpos d)) as r eqn:Er.
  clear Et Er. split.
  - apply Qabs_Qlt_condition.
    unfold Qlt, Qminus, Qplus, Qopp, inject_Z. cbn [Qnum Qden].
    rewrite !Pos.mul_1_r. lia.
  - apply Qabs_Qle_condition. unfold Qabs, Qle, Qopp, inject_Z. cbn [Qnum Qden].
    destruct (Z.le_ge_cases 0 n) as [Hn|Hn]; split; nia.
Qed.


(** The time of a point on doubles. *)
Lemma rounded_timedPoint_time (startTime : Date) (avgSpeed : num) (point : Point) :
  get (Rounded.timedPoint startTime avgSpeed point) "time"
  = VDate (newDate (getTime startTime
                    + (cumulativeDistance point / 1000 / avgSpeed) * 3600000)%b64).
Proof. reflexivity. Qed.

(** Rounding touches the time only: the object of a point on doubles has the
    properties of the object in exact arithmetic, with the same [lat] and
    [lon], and no [cumulativeDistance] either. *)
Lemma rounded_timedPoint_fields (startTime : Date) (avgSpeed : num) (point : Point) :
  dom (Rounded.timedPoint startTime avgSpeed point)
  = dom (timedPoint startTime avgSpeed point)
  /\ get (Rounded.timedPoint startTime avgSpeed point) "lat" = VNum (lat point)
  /\ get (Rounded.timedPoint startTime avgSpeed point) "lon" = VNum (lon point)
  /\ Rounded.timedPoint startTime avgSpeed point !! "cumulativeDistance" = None.
Proof.
  split; [|repeat split].
  unfold Rounded.timedPoint, timedPoint. rewrite !dom_insert_L, !dom_singleton_L.
  reflexivity.
Qed.

(** C8, as the code has it, in binary64 arithmetic: for every start time
    and every speed above 0 the projector returns one object per point, in
    the order of the points, with [lat] and [lon] of the point.  Where the
    start time is valid and at most [span] milliseconds from the epoch, the
    cumulative distance is not negative, the speed lies between [2^-1000]
    and [2^900], and the travel time [(distance in km / speed)] hours is at
    most [span] milliseconds, the time is valid: it is the whole
    millisecond [t] that a number [s] is cut to toward zero, where [s] is
    within a hundredth of a millisecond of the instant start plus travel
    time; so [t] is less than 1.01 milliseconds away from that instant.
    Where the start time is invalid, so is the time.  A point at 15000
    meters, with the start 2024-01-01T00:00:00 and the speed 30, gets the
    time 2024-01-01T00:30:00. *)
Theorem calculateTimedPoints_times (points : list Point) (startTime : Date)
    (avgSpeed : num) :
  (avgSpeed >? 0)%num = true ->
  (exists out,
     Rounded.calculateTimedPoints points startTime avgSpeed = Done out
     /\ Forall2 (fun point o =>
                   get o "lat" = VNum (lat point)
                   /\ get o "lon" = VNum (lon point)
                   /\ (forall start d speed,
                         startTime = ValidDate start ->
                         cumulativeDistance point = Fin d ->
                         avgSpeed = Fin speed ->
                         (Qabs (inject_Z start) <= inject_Z span)%Q ->
                         (0 <= d)%Q ->
                         (2 ^ (-1000) <= speed)%Q ->
                         (speed <= 2 ^ 900)%Q ->
                         (exact_time start d speed - inject_Z start <= inject_Z span)%Q ->
                         exists (t : Z) (s : Q),
                           get o "time" = VDate (ValidDate t)
                           /\ t = Qtrunc s
                           /\ (Qabs (s - exact_time start d speed) <= 1 # 100)%Q
                           /\ (Qabs (inject_Z t - exact_time start d speed) < 101 # 100)%Q)
                   /\ (startTime = InvalidDate -> get o "time" = VDate InvalidDate))
                points out)
  /\ (forall la lo,
        exists o,
          Rounded.calculateTimedPoints [mkPoint la lo 15000]
            (ValidDate (Date_UTC 2024 1 1 0 0 0)) 30 = Done [o]
          /\ get o "time" = VDate (ValidDate (Date_UTC 2024 1 1 0 30 0))).
Proof.
  intros Hspeed. split.
  - eexists. split; [reflexivity|].
    apply Forall2_fmap_r, Forall_Forall2_diag, Forall_forall.
    intros point _. split; [reflexivity|]. split; [reflexivity|]. split.
    + intros start d speed -> Hd -> Hstart Hd0 Hmin Hmax Htravel.
      destruct (time_error start d speed Hd0 Hmin Hmax Hstart) as (s & Es & Hs).
      { unfold exact_time in Htravel. change (inject_Z span) with 8640000000000%Q in Htravel.
        lra. }
      exists (Qtrunc s), s.
      assert (Hvalid : Qle_bool (Qabs s) (inject_Z maxTime) = true).
      { apply Qle_bool_iff, Qabs_bounds. apply Qabs_bounds in Hs, Hstart.
        unfold exact_time in *.
        change (inject_Z span) with 8640000000000%Q in *.
        change (inject_Z maxTime) with 8640000000000000%Q.
        assert (0 <= d / 1000 / speed * 3600000)%Q.
        { pose proof (pow2_pos (-1000)).
          apply Qmult_le_0_compat; [|discriminate].
          apply Qle_shift_div_l; [lra|]. apply Qle_shift_div_l; [reflexivity|lra]. }
        lra. }
      split; [|split; [reflexivity|split; [exact Hs|]]].
      * rewrite rounded_timedPoint_time, Hd, Es. unfold newDate. rewrite Hvalid. reflexivity.
      * destruct (Qtrunc_close s) as [Hclose _].
        apply Qabs_Qlt_condition in Hclose. apply Qabs_bounds in Hs.
        apply Qabs_Qlt_condition. lra.
    + intros ->. reflexivity.
  - intros la lo. eexists. split; [reflexivity|].
    rewrite rounded_timedPoint_time. vm_compute. reflexivity.
Qed.

Lemma calculateTimedPoints_times_witness :
  exists (o : object) (t : Z) (s : Q),
    Rounded.calculateTimedPoints [at_distance 15000] (ValidDate 1704067200000) 30
    = Done [o]
    /\ get o "time" = VDate (ValidDate t)
    /\ t = Qtrunc s
    /\ (Qabs (s - exact_time 1704067200000 15000 30) <= 1 # 100)%Q
    /\ (Qabs (inject_Z t - exact_time 1704067200000 15000 30) < 101 # 100)%Q.
Proof.
  destruct (calculateTimedPoints_times [at_distance 15000] (ValidDate 1704067200000) 30)
    as [(out & Hout & Hall) _]; [reflexivity|].
  injection Hout as <-. cbn [map] in Hall.
  apply Forall2_cons_1 in Hall as [(_ & _ & Htime & _) _].
  destruct (Htime 1704067200000 15000%Q 30%Q) as (t & s & Ht & Hs & Herr & Hnear);
    [reflexivity|reflexivity|reflexivity|vm_compute; discriminate|discriminate
    |vm_compute; discriminate|vm_compute; discriminate|vm_compute; discriminate|].
  exists (Rounded.timedPoint (ValidDate 1704067200000) 30 (at_distance 15000)), t, s.
  split; [reflexivity|]. split; [exact Ht|]. split; [exact Hs|].
  split; [exact Herr|exact Hnear].
Defined.

(** C8 fails to the millisecond.  One meter at 7 km/h takes 3600/7
    milliseconds, and the time of the point is 514 milliseconds after the
    start.  13000 meters at 3 km/h take 15600000 milliseconds, a whole
    number, and the time of the point is 15599999 milliseconds after the
    start: the quotient 13/3 is rounded down, and so is its product with
    3600000. *)
Lemma calculateTimedPoints_inexact :
  (7 >? 0)%num = true
  /\ (3 >? 0)%num = true
  /\ (exists o,
        Rounded.calculateTimedPoints [at_distance 1] (ValidDate 0) 7 = Done [o]
        /\ get o "time" = VDate (ValidDate 514)
        /\ ~ (inject_Z 514 == exact_time 0 1 7)%Q)
  /\ (exists o,
        Rounded.calculateTimedPoints [at_distance 13000] (ValidDate 0) 3 = Done [o]
        /\ get o "time" = VDate (ValidDate 15599999)
        /\ (exact_time 0 13000 3 == inject_Z 15600000)%Q).
Proof.
  split; [reflexivity|]. split; [reflexivity|]. split.
  - eexists. split; [reflexivity|]. split.
    + rewrite rounded_timedPoint_time. vm_compute. reflexivity.
    + intros H. vm_compute in H. discriminate H.
  - eexists. split; [reflexivity|]. split.
    + rewrite rounded_timedPoint_time. vm_compute. reflexivity.
    + reflexivity.
Qed.

(* ===================================================================== *)
(** ** The weather annotator: properties *)
(* ===================================================================== *)

Section AnnotatorFacts.

Variable Response : Type.
Variable service : list Request -> Request -> result Response.
Variable json : Response -> result Data.
Variable getHours : Z -> Z.
Variable Marker : Type.
Variable L_marker : value -> value -> value -> result Marker.

Local Abbreviation lookup' := (lookup Response service json getHours).
Local Abbreviation lookups' := (lookups Response service json getHours).
Local Abbreviation try_body' := (try_body Response service json getHours Marker L_marker).
Local Abbreviation for_of' := (for_of Response service json getHours Marker L_marker).
Local Abbreviation fetchWeatherData' :=
  (fetchWeatherData Response service json getHours Marker L_marker).

(** Case analysis on the calls and the property reads of a [try] block. *)
Ltac crunch :=
  repeat (cbn;
          match goal with
          | |- context [call ?r] => destruct r
          | |- context [prop ?o _] => destruct o
          end).

(** One turn of the [for] loop: it completes, it adds the weather point of
    the point when the lookup succeeds and nothing otherwise, and it sends
    the requests of the lookup. *)
Lemma try_step (point : object) (s : State Marker) :
  exists s',
    try_catch Marker (try_body' point) (console_error Marker) s = (Done tt, s')
    /\ weatherData s' = weatherData s ++ successes [point] [lookup' (requests (world s)) point]
    /\ requests (world s') = requests (world s) ++ sends point.
Proof.
  unfold try_catch, try_body, lookup, sends, eff_bind, lift, fetch, push, addMarker,
    with_world, console_error, hourly_at.
  destruct (get point "time") as [| |n|[|ms]]; crunch;
    eexists; (split; [reflexivity|]); cbn; rewrite ?app_nil_r; split; reflexivity.
Qed.

Lemma successes_cons (point : object) (points : list object)
    (answer : outcome (value * value * value))
    (answers : list (outcome (value * value * value))) :
  successes (point :: points) (answer :: answers)
  = successes [point] [answer] ++ successes points answers.
Proof. destruct answer; reflexivity. Qed.

Lemma for_of_spec (points : list object) :
  forall s : State Marker,
    exists s',
      for_of' points s = (Done tt, s')
      /\ weatherData s' = weatherData s ++ successes points (lookups' (requests (world s)) points)
      /\ requests (world s') = requests (world s) ++ concat (map sends points).
Proof.
  induction points as [|point rest IH]; intros s.
  - exists s. cbn. rewrite !app_nil_r. auto.
  - destruct (try_step point s) as (s1 & Hrun & Hdata & Hsent).
    destruct (IH s1) as (s2 & Hrest & Hdata2 & Hsent2).
    exists s2. split; [|split].
    + cbn [for_of]. unfold eff_bind at 1. rewrite Hrun. exact Hrest.
    + rewrite Hdata2, Hdata, Hsent. cbn [lookups].
      rewrite (successes_cons point rest), app_assoc. reflexivity.
    + rewrite Hsent2, Hsent. cbn [map concat]. rewrite app_assoc. reflexivity.
Qed.

Lemma length_lookups (sent : list Request) (points : list object) :
  length (lookups' sent points) = length points.
Proof.
  revert sent. induction points as [|point rest IH]; intros sent; [reflexivity|].
  cbn [lookups length]. rewrite IH. reflexivity.
Qed.

Lemma length_successes (points : list object)
    (answers : list (outcome (value * value * value))) :
  (length (successes points answers) <= length points)%nat.
Proof.
  revert answers. induction points as [|point rest IH]; intros answers; [cbn; lia|].
  destruct answers as [|[sample|e|] answers]; cbn; try lia;
    specialize (IH answers); lia.
Qed.

(** C9: [fetchWeatherData] completes; the lookups are made one per point in
    the order of the points, each after the requests of the ones before it;
    the array handed to [displayWeather] holds the weather point of each
    point whose lookup succeeded, in the order of the points, and nothing
    for a point whose lookup failed, so it is at most as long as the input.
    For five points where only the lookup of the third fails, it holds the
    weather points of the other four, in their order. *)
Theorem fetchWeatherData_annotates (points : list object) (w : World Marker) :
  (exists s,
     fetchWeatherData' points w = (Done tt, s)
     /\ length (lookups' (requests w) points) = length points
     /\ requests (world s) = requests w ++ concat (map sends points)
     /\ weatherData s = successes points (lookups' (requests w) points)
     /\ (length (weatherData s) <= length points)%nat)
  /\ (forall p0 p1 p2 p3 p4 s0 s1 e s3 s4,
        lookups' (requests w) [p0; p1; p2; p3; p4]
        = [Done s0; Done s1; Throw e; Done s3; Done s4] ->
        exists s,
          fetchWeatherData' [p0; p1; p2; p3; p4] w = (Done tt, s)
          /\ weatherData s = [weatherPoint p0 s0; weatherPoint p1 s1;
                              weatherPoint p3 s3; weatherPoint p4 s4]).
Proof.
  assert (Hrun : forall pts,
             exists s,
               fetchWeatherData' pts w = (Done tt, s)
               /\ requests (world s) = requests w ++ concat (map sends pts)
               /\ weatherData s = successes pts (lookups' (requests w) pts)).
  { intros pts. unfold fetchWeatherData, eff_bind, clearMarkers, with_world.
    cbn [weatherData world].
    match goal with
    | |- context [for_of' pts ?s0] => destruct (for_of_spec pts s0) as (s1 & H1 & Hdata & Hsent)
    end.
    rewrite H1. unfold displayWeather, with_world. eexists. split; [reflexivity|].
    cbn. auto. }
  split.
  - destruct (Hrun points) as (s & Hs & Hsent & Hdata).
    exists s. split; [exact Hs|]. split; [apply length_lookups|].
    split; [exact Hsent|]. split; [exact Hdata|].
    rewrite Hdata. apply length_successes.
  - intros p0 p1 p2 p3 p4 s0 s1 e s3 s4 Hanswers.
    destruct (Hrun [p0; p1; p2; p3; p4]) as (s & Hs & _ & Hdata).
    exists s. split; [exact Hs|]. rewrite Hdata, Hanswers. reflexivity.
Qed.

End AnnotatorFacts.

Lemma fetchWeatherData_annotates_witness :
  let tp d := timedPoint (ValidDate 0) 30 (at_distance d) in
  let sample := (VNum 12, VNum 3, VNum 61) in
  exists s,
    fetchWeatherData Data third_fails Ok (fun _ => 0) unit (fun _ _ _ => Ok tt)
      [tp 0; tp 1000; tp 2000; tp 3000; tp 4000]
      {| requests := []; markers := []; console := []; weatherTimeline := [] |}
    = (Done tt, s)
    /\ weatherData s = [weatherPoint (tp 0) sample; weatherPoint (tp 1000) sample;
                        weatherPoint (tp 3000) sample; weatherPoint (tp 4000) sample].
Proof.
  intros tp sample.
  apply (proj2 (fetchWeatherData_annotates Data third_fails Ok (fun _ => 0) unit
                  (fun _ _ _ => Ok tt) []
                  {| requests := []; markers := []; console := []; weatherTimeline := [] |})
           (tp 0) (tp 1000) (tp 2000) (tp 3000) (tp 4000)
           sample sample Rejected sample sample).
  reflexivity.
Defined.

(* ===================================================================== *)
(** ** The track loader: the shape of a track *)
(* ===================================================================== *)

Lemma adjacent_snoc (rel : num -> num -> bool) (l : list Point) (p : Point) :
  adjacent rel l = true ->
  (forall s, last l = Some s -> rel (cumulativeDistance s) (cumulativeDistance p) = true) ->
  adjacent rel (l ++ [p]) = true.
Proof.
  induction l as [|a [|b l] IH]; intros Hadj Hlast.
  - reflexivity.
  - cbn. rewrite (Hlast a) by reflexivity. reflexivity.
  - cbn [adjacent app] in *. apply andb_true_iff in Hadj as [Hab Hadj].
    rewrite Hab. cbn [andb]. apply IH; [exact Hadj|].
    intros s Hs. apply Hlast. exact Hs.
Qed.

Lemma le_refl_nonneg (a : num) : (0 <=? a)%num = true -> (a <=? a)%num = true.
Proof. intros; num_solve. Qed.

Lemma le_add_nonneg (a d : num) :
  (0 <=? a)%num = true -> (0 <=? d)%num = true ->
  (a <=? a + d)%num = true /\ (0 <=? a + d)%num = true.
Proof. intros; split; num_solve. Qed.

Section LoaderShape.

Variable LatLng : Type.
Variable latLng : num -> num -> result LatLng.
Variable distanceTo : LatLng -> LatLng -> num.

Local Abbreviation from := (processGPX_from LatLng latLng distanceTo).

Lemma processGPX_from_coordinates (trackPoints : list (num * num)) :
  forall index cumDist prevCoords points out,
    from trackPoints index cumDist prevCoords points = Done out ->
    map (fun p => (lat p, lon p)) out
    = map (fun p => (lat p, lon p)) points ++ trackPoints.
Proof.
  induction trackPoints as [|[la lo] rest IH]; intros index cumDist prevCoords points out H.
  - injection H as <-. symmetry. apply app_nil_r.
  - cbn [processGPX_from] in H.
    destruct (latLng la lo) as [coords|e]; [|discriminate].
    cbn [call mbind outcome_bind] in H.
    destruct (0 <? index)%nat.
    + destruct prevCoords as [prev|]; [|discriminate].
      cbn [prop mbind outcome_bind] in H.
      apply IH in H. rewrite H, map_app, <- app_assoc. reflexivity.
    + cbn [mbind outcome_bind] in H.
      apply IH in H. rewrite H, map_app, <- app_assoc. reflexivity.
Qed.

(** X1: a track that the loader returns has one point per [trkpt] element,
    in the order of the elements, with the [lat] and [lon] of the element. *)
Theorem processGPX_keeps_coordinates (trackPoints : list (num * num))
    (points : list Point) :
  processGPX LatLng latLng distanceTo trackPoints = Done points ->
  map (fun p => (lat p, lon p)) points = trackPoints
  /\ length points = length trackPoints.
Proof.
  intros H. apply processGPX_from_coordinates in H. cbn [map app] in H.
  split; [exact H|]. rewrite <- H, length_map. reflexivity.
Qed.

(** The state of the [forEach] between two elements: from the second element
    on there are coordinates of the element before. *)
Lemma processGPX_from_throws (trackPoints : list (num * num)) :
  forall index cumDist prevCoords points e,
    ((0 < index)%nat -> is_Some prevCoords) ->
    (from trackPoints index cumDist prevCoords points = Throw e
     <-> exists before la lo after,
           trackPoints = before ++ (la, lo) :: after
           /\ Forall (fun tp => exists c, latLng tp.1 tp.2 = Ok c) before
           /\ latLng la lo = Err e).
Proof.
  induction trackPoints as [|[la lo] rest IH]; intros index cumDist prevCoords points e Hprev.
  - split; [discriminate|]. intros (before & la & lo & after & H & _).
    destruct before; discriminate H.
  - cbn [processGPX_from].
    destruct (latLng la lo) as [coords|e'] eqn:Ell.
    + cbn [call mbind outcome_bind].
      assert (Hstep : exists cumDist',
                 (if (0 <? index)%nat
                  then prop prevCoords (distanceTo coords)
                       ≫= (fun d => Done (cumDist + d)%num)
                  else Done cumDist) = Done cumDist').
      { destruct (0 <? index)%nat eqn:Hi; [|eauto].
        apply Nat.ltb_lt in Hi. destruct (Hprev Hi) as [prev ->]. cbn. eauto. }
      destruct Hstep as [cumDist' ->]. cbn [mbind outcome_bind].
      rewrite IH by (intros _; eauto). split.
      * intros (before & la' & lo' & after & -> & Hok & Herr).
        exists ((la, lo) :: before), la', lo', after. split; [reflexivity|].
        split; [|exact Herr]. constructor; [cbn; eauto|exact Hok].
      * intros (before & la' & lo' & after & H & Hok & Herr).
        destruct before as [|tp before].
        -- injection H as <- <- _. congruence.
        -- injection H as <- ->. inversion Hok; subst.
           exists before, la', lo', after. auto.
    + cbn [call mbind outcome_bind]. split.
      * intros [= <-]. exists [], la, lo, rest. auto.
      * intros (before & la' & lo' & after & H & Hok & Herr).
        destruct before as [|tp before].
        -- injection H as <- <- _. congruence.
        -- injection H as <- ->. inversion Hok as [|? ? [c Hc] ?]; subst.
           cbn in Hc. congruence.
Qed.

(** X2: the loader fails exactly when Leaflet refuses a coordinate pair: it
    throws the error of the first pair that is refused, and nothing else of
    its own (the coordinates of the element before are read only from the
    second element on). *)
Theorem processGPX_throws_first_refusal (trackPoints : list (num * num)) (e : js_error) :
  processGPX LatLng latLng distanceTo trackPoints = Throw e
  <-> exists before la lo after,
        trackPoints = before ++ (la, lo) :: after
        /\ Forall (fun tp => exists c, latLng tp.1 tp.2 = Ok c) before
        /\ latLng la lo = Err e.
Proof. apply processGPX_from_throws. intros H. inversion H. Qed.

Lemma processGPX_from_nondecreasing (trackPoints : list (num * num)) :
  (forall a b, (0 <=? distanceTo a b)%num = true) ->
  forall index cumDist prevCoords points out,
    nondecreasing points = true ->
    (0 <=? cumDist)%num = true ->
    (forall p, last points = Some p -> (cumulativeDistance p <=? cumDist)%num = true) ->
    from trackPoints index cumDist prevCoords points = Done out ->
    nondecreasing out = true.
Proof.
  intros Hdist.
  induction trackPoints as [|[la lo] rest IH];
    intros index cumDist prevCoords points out Hnd Hcum Hlast H.
  - injection H as <-. exact Hnd.
  - cbn [processGPX_from] in H.
    destruct (latLng la lo) as [coords|e]; [|discriminate].
    cbn [call mbind outcome_bind] in H.
    assert (Hnext : forall cumDist',
               (cumDist <=? cumDist')%num = true -> (0 <=? cumDist')%num = true ->
               from rest (S index) cumDist' (Some coords)
                 (points ++ [ {| lat := la; lon := lo; cumulativeDistance := cumDist' |} ])
               = Done out ->
               nondecreasing out = true).
    { intros cumDist' Hle H0 Hrun. eapply IH; [| exact H0 | | exact Hrun].
      - apply adjacent_snoc; [exact Hnd|]. intros s Hs. cbn.
        eapply le_trans; [apply Hlast, Hs|exact Hle].
      - intros p Hp. rewrite last_snoc in Hp. injection Hp as <-. cbn.
        apply le_refl_nonneg, H0. }
    destruct (0 <? index)%nat.
    + destruct prevCoords as [prev|]; [|discriminate].
      cbn [prop mbind outcome_bind] in H.
      destruct (le_add_nonneg cumDist (distanceTo coords prev) Hcum (Hdist _ _)).
      eapply Hnext; eauto.
    + cbn [mbind outcome_bind] in H.
      eapply Hnext; [apply le_refl_nonneg, Hcum|exact Hcum|exact H].
Qed.

(** X3: where the distance between two coordinates is never negative (nor
    NaN), the cumulative distances of a track that the loader returns do
    not decrease, and its first point lies at the distance 0. *)
Theorem processGPX_track_invariant (trackPoints : list (num * num)) (points : list Point) :
  (forall a b, (0 <=? distanceTo a b)%num = true) ->
  processGPX LatLng latLng distanceTo trackPoints = Done points ->
  nondecreasing points = true
  /\ (forall p, head points = Some p -> cumulativeDistance p = 0).
Proof.
  intros Hdist H. split.
  - eapply (processGPX_from_nondecreasing trackPoints Hdist); [| | |exact H].
    + reflexivity.
    + reflexivity.
    + intros p Hp. discriminate Hp.
  - intros p Hp. destruct points as [|p' points]; [discriminate|].
    injection Hp as ->. eapply processGPX_first_distance, H.
Qed.

End LoaderShape.

Lemma processGPX_keeps_coordinates_witness :
  map (fun p => (lat p, lon p)) [mkPoint 0 0 0; mkPoint 1 0 1]
  = [(of_Z 0, of_Z 0); (of_Z 1, of_Z 0)]
  /\ length [mkPoint 0 0 0; mkPoint 1 0 1] = length [(of_Z 0, of_Z 0); (of_Z 1, of_Z 0)].
Proof.
  apply (processGPX_keeps_coordinates (num * num) plane_latLng plane_distanceTo
           [(of_Z 0, of_Z 0); (of_Z 1, of_Z 0)] [mkPoint 0 0 0; mkPoint 1 0 1]).
  reflexivity.
Defined.

Lemma processGPX_track_invariant_witness :
  nondecreasing [mkPoint 0 0 0; mkPoint 2 0 2; mkPoint 1 0 3] = true
  /\ (forall p, head [mkPoint 0 0 0; mkPoint 2 0 2; mkPoint 1 0 3] = Some p ->
                cumulativeDistance p = 0).
Proof.
  apply (processGPX_track_invariant Z line_latLng line_distanceTo
           [(of_Z 0, of_Z 0); (of_Z 2, of_Z 0); (of_Z 1, of_Z 0)]).
  - intros a b. apply Qle_bool_iff. unfold Qle. cbn. lia.
  - reflexivity.
Defined.

(* ===================================================================== *)
(** ** The distance sampler: where the samples lie *)
(* ===================================================================== *)

Lemma find_from_before (pred : Point -> bool) (l : list Point) (i j : Z) (p : Point) :
  find_from pred l i = Some (j, p) ->
  forall (k : nat) (q : Point),
    (k < Z.to_nat (j - i))%nat -> l !! k = Some q -> pred q = false.
Proof.
  revert i. induction l as [|a l IH]; intros i H k q Hk Hq; [discriminate|].
  cbn [find_from] in H. destruct (pred a) eqn:Ea.
  - injection H as <- <-. rewrite Z.sub_diag in Hk. cbn in Hk. lia.
  - pose proof (find_from_Some _ _ _ _ _ H) as (Hle & _ & _).
    destruct k as [|k]; [injection Hq as <-; exact Ea|].
    eapply (IH (i + 1)); [exact H| |exact Hq]. lia.
Qed.

Lemma find_None (pred : Point -> bool) (l : list Point) :
  find pred l = None -> forall p, p ∈ l -> pred p = false.
Proof.
  unfold find. generalize 0. induction l as [|a l IH]; intros i H p Hp.
  - inversion Hp.
  - cbn [find_from] in H. destruct (pred a) eqn:Ea; [discriminate|].
    apply elem_of_cons in Hp as [->|Hp]; [exact Ea|]. eapply IH; eauto.
Qed.

Section SamplerTrace.

Variable points : list Point.
Variable intervalMeters : num.
Variable totalDistance : num.

Local Abbreviation loop := (sample_loop points intervalMeters totalDistance).
Local Abbreviation located offset :=
  (find (fun p => (cumulativeDistance p >=? offset)%num) points).

(** One turn of the loop, with what it read of the track. *)
Lemma sample_loop_turn (cur : num) (sampled : list Point) :
  (cur <=? totalDistance)%num = true ->
  (located cur = None /\ forall fuel, loop (S fuel) cur sampled = Done sampled)
  \/ exists idx next,
       located cur = Some (idx, next)
       /\ (((cumulativeDistance next === cur)%num = true \/ idx = 0)
           /\ (forall fuel, loop (S fuel) cur sampled
                            = loop fuel (cur + intervalMeters)%num (sampled ++ [next]))
           \/ exists prev,
                (cumulativeDistance next === cur)%num = false
                /\ 0 < idx
                /\ points !! Z.to_nat (idx - 1) = Some prev
                /\ (forall fuel, loop (S fuel) cur sampled
                                 = loop fuel (cur + intervalMeters)%num
                                     (sampled ++ [interpolate prev next cur]))).
Proof.
  intros Hle.
  destruct (located cur) as [[idx next]|] eqn:Efind.
  - apply find_Some in Efind as Hfind. destruct Hfind as (Hidx & Hnext & Hge).
    right. exists idx, next. split; [reflexivity|].
    destruct (cumulativeDistance next === cur)%num eqn:Eseq.
    + left. split; [auto|]. intros fuel. cbn [sample_loop].
      rewrite Hle, Efind, Eseq. reflexivity.
    + destruct (Z.eq_dec idx 0) as [->|Hne].
      * left. split; [auto|]. intros fuel. cbn [sample_loop].
        rewrite Hle, Efind, Eseq. reflexivity.
      * destruct (at_index_before points idx next) as [prev Hprev]; [lia|exact Hnext|].
        right. exists prev. split; [reflexivity|]. split; [lia|]. split.
        -- unfold at_index in Hprev.
           destruct (Z.ltb_spec (idx - 1) 0); [lia|exact Hprev].
        -- intros fuel. cbn [sample_loop]. rewrite Hle, Efind, Eseq, Hprev.
           reflexivity.
  - left. split; [reflexivity|]. intros fuel. cbn [sample_loop].
    rewrite Hle, Efind. reflexivity.
Qed.

(** An invariant kept by both kinds of turn holds at the end of the loop,
    where the offset has passed the total or no point was located. *)
Lemma sample_loop_trace (Inv : num -> list Point -> Prop) :
  (forall cur sampled idx next,
      Inv cur sampled ->
      (cur <=? totalDistance)%num = true ->
      located cur = Some (idx, next) ->
      (cumulativeDistance next === cur)%num = true \/ idx = 0 ->
      Inv (cur + intervalMeters)%num (sampled ++ [next])) ->
  (forall cur sampled idx next prev,
      Inv cur sampled ->
      (cur <=? totalDistance)%num = true ->
      located cur = Some (idx, next) ->
      (cumulativeDistance next === cur)%num = false ->
      0 < idx ->
      points !! Z.to_nat (idx - 1) = Some prev ->
      Inv (cur + intervalMeters)%num (sampled ++ [interpolate prev next cur])) ->
  forall fuel cur sampled out,
    Inv cur sampled ->
    loop fuel cur sampled = Done out ->
    exists cur',
      Inv cur' out
      /\ ((cur' <=? totalDistance)%num = false
          \/ ((cur' <=? totalDistance)%num = true /\ located cur' = None)).
Proof.
  intros Hsame Hnew.
  induction fuel as [|fuel IH]; intros cur sampled out HI H; [discriminate|].
  destruct (cur <=? totalDistance)%num eqn:Hle.
  - destruct (sample_loop_turn cur sampled Hle)
      as [[Hnone Hs]|(idx & next & Hloc & [[Hcase Hs]|(prev & Hseq & Hidx & Hprev & Hs)])];
      rewrite Hs in H.
    + injection H as <-. eauto.
    + eapply IH; [|exact H]. eapply Hsame; eauto.
    + eapply IH; [|exact H]. eapply Hnew; eauto.
  - rewrite sample_loop_exit in H by exact Hle. injection H as <-. eauto.
Qed.

End SamplerTrace.

(** X4: the sampler throws nothing, for any track, interval and fuel, and
    what it returns is empty exactly for the empty track. *)
Theorem sample_never_throws (fuel : nat) (points : list Point) (interval : num) :
  (forall e, samplePointsByDistance fuel points interval <> Throw e)
  /\ (forall out, samplePointsByDistance fuel points interval = Done out ->
                  (out = [] <-> points = [])).
Proof.
  split; [intros e; apply samplePointsByDistance_no_throw|].
  intros out H. destruct (last points) as [lastPoint|] eqn:Hlast.
  - assert (Hne : points <> []) by (intros ->; discriminate).
    destruct (interval <=? 0)%num eqn:Hi.
    + unfold samplePointsByDistance in H. rewrite Hi, orb_true_r in H.
      injection H as <-. reflexivity.
    + rewrite (samplePointsByDistance_unfold _ _ _ _ Hlast Hi) in H.
      destruct (sample_loop _ _ _ _ _ _) as [sampled| |]; try discriminate.
      split; [|contradiction]. intros ->.
      destruct (last sampled) as [s|] eqn:Hs.
      * destruct (_ <? _)%num; injection H as H.
        -- destruct sampled; discriminate.
        -- subst sampled. discriminate.
      * injection H as H. destruct sampled; discriminate.
  - apply last_None in Hlast as ->. injection H as <-. reflexivity.
Qed.

(** X5: on a track whose cumulative distances do not decrease and whose
    total distance is finite, no point that the sampler returns lies beyond
    the end of the track. *)
Theorem sample_within_total (fuel : nat) (points out : list Point) (interval : num) :
  nondecreasing points = true ->
  is_finite (total points) = true ->
  samplePointsByDistance fuel points interval = Done out ->
  Forall (fun p => (cumulativeDistance p <=? total points)%num = true) out.
Proof.
  intros Hnd Hfin H.
  assert (Htrack : Forall (fun p => (cumulativeDistance p <=? total points)%num = true)
                          points).
  { apply Forall_forall. intros p Hp. apply nondecreasing_le_total; assumption. }
  destruct (last points) as [lastPoint|] eqn:Hlast.
  - destruct (interval <=? 0)%num eqn:Hi.
    + unfold samplePointsByDistance in H. rewrite Hi, orb_true_r in H.
      injection H as <-. exact Htrack.
    + rewrite (samplePointsByDistance_unfold _ _ _ _ Hlast Hi) in H.
      assert (Htotal : total points = cumulativeDistance lastPoint)
        by (unfold total; rewrite Hlast; reflexivity).
      rewrite <- Htotal in H.
      assert (Hlp : (cumulativeDistance lastPoint <=? total points)%num = true).
      { eapply Forall_forall in Htrack; [exact Htrack|]. apply last_elem_of, Hlast. }
      destruct (sample_loop _ _ _ _ _ _) as [sampled| |] eqn:Hloop; try discriminate.
      destruct (sample_loop_invariant points interval (total points)
                  (fun _ sampled =>
                     Forall (fun p => (cumulativeDistance p <=? total points)%num = true)
                            sampled))
        with (fuel := fuel) (cur := of_Z 0) (sampled := @nil Point) (out := sampled)
        as [_ Hall]; [|constructor|exact Hloop|].
      { intros cur acc p Hacc Hcur Hp. apply Forall_app. split; [exact Hacc|].
        constructor; [|constructor].
        destruct Hp as [[Hin Hseq]|[[Hhead Hge]|Heq]].
        - eapply le_trans; [apply seq_le, Hseq|exact Hcur].
        - eapply Forall_forall in Htrack; [exact Htrack|].
          destruct points; [discriminate|]. injection Hhead as ->. left.
        - rewrite Heq. exact Hcur. }
      assert (Hpush : Forall (fun p => (cumulativeDistance p <=? total points)%num = true)
                             (sampled ++ [lastPoint])).
      { apply Forall_app. split; [exact Hall|]. constructor; [exact Hlp|constructor]. }
      destruct (last sampled) as [s|]; [destruct (_ <? _)%num|];
        injection H as <-; assumption.
  - apply last_None in Hlast as ->. injection H as <-. constructor.
Qed.

Lemma sample_within_total_witness :
  Forall (fun p => (cumulativeDistance p
                    <=? total [at_distance 0; at_distance 500; at_distance 1200])%num = true)
         [at_distance 0; interpolate (at_distance 500) (at_distance 1200) 1000;
          at_distance 1200].
Proof.
  apply (sample_within_total 3 [at_distance 0; at_distance 500; at_distance 1200]
           [at_distance 0; interpolate (at_distance 500) (at_distance 1200) 1000;
            at_distance 1200] 1000); reflexivity.
Defined.

(** Where the sampler makes a point of its own, the offset lies strictly
    between the point before the located one and the located one. *)
Lemma interpolate_inside (prev next : Point) (cur total : num) :
  is_nan (cumulativeDistance prev) = false ->
  (cur <=? total)%num = true ->
  (cumulativeDistance prev >=? cur)%num = false ->
  (cumulativeDistance next >=? cur)%num = true ->
  (cumulativeDistance next === cur)%num = false ->
  (cumulativeDistance prev <? cur)%num = true
  /\ (cur <? cumulativeDistance next)%num = true.
Proof.
  destruct prev as [pl po pc], next as [nl no nc]. cbn [cumulativeDistance].
  intros Hp Hcur Hprev Hnext Hseq. clear pl po nl no.
  split; num_solve.
Qed.

(** X6: on a track whose cumulative distances are numbers, every point that
    the sampler returns is a point of the track, or it lies inside a
    segment of the track: its cumulative distance is strictly between those
    of two neighbouring points of the track. *)
Theorem sample_on_track (fuel : nat) (points out : list Point) (interval : num) :
  Forall (fun p => is_nan (cumulativeDistance p) = false) points ->
  samplePointsByDistance fuel points interval = Done out ->
  Forall (fun p =>
            p ∈ points
            \/ exists (j : nat) (prev next : Point),
                 points !! j = Some prev
                 /\ points !! S j = Some next
                 /\ (cumulativeDistance prev <? cumulativeDistance p)%num = true
                 /\ (cumulativeDistance p <? cumulativeDistance next)%num = true)
         out.
Proof.
  intros Hfin H.
  set (On := fun p : Point =>
               p ∈ points
               \/ exists (j : nat) (prev next : Point),
                    points !! j = Some prev
                    /\ points !! S j = Some next
                    /\ (cumulativeDistance prev <? cumulativeDistance p)%num = true
                    /\ (cumulativeDistance p <? cumulativeDistance next)%num = true).
  assert (Htrack : Forall On points).
  { apply Forall_forall. intros p Hp. left. exact Hp. }
  destruct (last points) as [lastPoint|] eqn:Hlast.
  - destruct (interval <=? 0)%num eqn:Hi.
    + unfold samplePointsByDistance in H. rewrite Hi, orb_true_r in H.
      injection H as <-. exact Htrack.
    + rewrite (samplePointsByDistance_unfold _ _ _ _ Hlast Hi) in H.
      destruct (sample_loop _ _ _ _ _ _) as [sampled| |] eqn:Hloop; try discriminate.
      destruct (sample_loop_trace points interval (cumulativeDistance lastPoint)
                  (fun _ sampled => Forall On sampled))
        with (fuel := fuel) (cur := of_Z 0) (sampled := @nil Point) (out := sampled)
        as [_ [Hall _]]; [| |constructor|exact Hloop|].
      { intros cur acc idx next Hacc _ Hloc _. apply Forall_app. split; [exact Hacc|].
        constructor; [|constructor]. left.
        apply find_Some in Hloc as (_ & Hnext & _).
        eapply list_elem_of_lookup_2, Hnext. }
      { intros cur acc idx next prev Hacc Hcur Hloc Hseq Hidx Hprev.
        apply Forall_app. split; [exact Hacc|]. constructor; [|constructor]. right.
        pose proof (find_Some _ _ _ _ Hloc) as (_ & Hnext & Hge).
        assert (Hbefore : (cumulativeDistance prev >=? cur)%num = false).
        { apply (find_from_before _ _ _ _ _ Hloc (Z.to_nat (idx - 1)) prev); [lia|exact Hprev]. }
        assert (Hfp : is_nan (cumulativeDistance prev) = false).
        { eapply Forall_forall in Hfin; [exact Hfin|]. eapply list_elem_of_lookup_2, Hprev. }
        destruct (interpolate_inside prev next cur _ Hfp Hcur Hbefore Hge Hseq)
          as (H1 & H2).
        exists (Z.to_nat (idx - 1)), prev, next. split; [exact Hprev|]. split.
        - replace (S (Z.to_nat (idx - 1))) with (Z.to_nat idx) by lia. exact Hnext.
        - split; [exact H1|exact H2]. }
      assert (Hpush : Forall On (sampled ++ [lastPoint])).
      { apply Forall_app. split; [exact Hall|]. constructor; [|constructor].
        left. apply last_elem_of, Hlast. }
      destruct (last sampled) as [s|]; [destruct (_ <? _)%num|];
        injection H as <-; assumption.
  - apply last_None in Hlast as ->. injection H as <-. constructor.
Qed.

Lemma sample_on_track_witness :
  let points := [at_distance 0; at_distance 500; at_distance 1200] in
  Forall (fun p =>
            p ∈ points
            \/ exists (j : nat) (prev next : Point),
                 points !! j = Some prev
                 /\ points !! S j = Some next
                 /\ (cumulativeDistance prev <? cumulativeDistance p)%num = true
                 /\ (cumulativeDistance p <? cumulativeDistance next)%num = true)
         [at_distance 0; interpolate (at_distance 500) (at_distance 1200) 1000;
          at_distance 1200].
Proof.
  apply (sample_on_track 3 [at_distance 0; at_distance 500; at_distance 1200]
           [at_distance 0; interpolate (at_distance 500) (at_distance 1200) 1000;
            at_distance 1200] 1000).
  - repeat constructor.
  - reflexivity.
Defined.

(* ===================================================================== *)
(** ** The distance sampler: how many samples, and where *)
(* ===================================================================== *)

Local Abbreviation Qn k := (inject_Z (Z.of_nat k)).

Lemma Qn_succ (n : nat) : (Qn (S n) == Qn n + 1)%Q.
Proof. rewrite Nat2Z.inj_succ, <- Z.add_1_r, inject_Z_plus. reflexivity. Qed.

Lemma Qn_nonneg (n : nat) : (0 <= Qn n)%Q.
Proof. change 0%Q with (inject_Z 0). rewrite <- Zle_Qle. lia. Qed.

Lemma Qn_le (k m : nat) : (k <= m)%nat -> (Qn k <= Qn m)%Q.
Proof. intros H. rewrite <- Zle_Qle. lia. Qed.

Lemma Qn_mult_le (k m : nat) (q : Q) :
  (0 < q)%Q -> (k <= m)%nat -> (Qn k * q <= Qn m * q)%Q.
Proof. intros Hq H. apply Qmult_le_compat_r; [apply Qn_le, H|lra]. Qed.

Lemma Qceiling_unique (x : Q) (m : Z) :
  (inject_Z (m - 1) < x)%Q -> (x <= inject_Z m)%Q -> Qceiling x = m.
Proof.
  intros H1 H2.
  pose proof (Qle_ceiling x) as H3. pose proof (Qceiling_lt x) as H4.
  assert (m - 1 < Qceiling x)%Z by (rewrite Zlt_Qlt; eapply Qlt_le_trans; eassumption).
  assert (Qceiling x - 1 < m)%Z by (rewrite Zlt_Qlt; eapply Qlt_le_trans; eassumption).
  lia.
Qed.

Lemma seq_Qeq (a : num) (c c' : Q) :
  (a === Fin c)%num = true -> (c == c')%Q -> (a === Fin c')%num = true.
Proof.
  intros H Hc. destruct a as [| | |x]; try discriminate.
  cbn in *. q_reflect. lra.
Qed.

(** The loop on a track that starts at 0, for a finite positive interval:
    it returns one point per offset that does not pass the total, each at
    its offset. *)
Lemma sample_loop_count (first : Point) (rest : list Point) (t q : Q) (fuel : nat)
    (sampled : list Point) :
  (cumulativeDistance first === 0)%num = true ->
  total (first :: rest) = Fin t ->
  (0 <= t)%Q ->
  (0 < q)%Q ->
  sample_loop (first :: rest) (Fin q) (Fin t) fuel 0 [] = Done sampled ->
  exists m,
    length sampled = S m
    /\ (forall k p, sampled !! k = Some p ->
                    (cumulativeDistance p === Fin (Qn k * q))%num = true)
    /\ (Qn m * q <= t)%Q
    /\ (t < Qn (S m) * q)%Q.
Proof.
  intros Hfirst Htotal Ht Hq Hloop.
  set (points := first :: rest) in *.
  set (Inv := fun (cur : num) (sampled : list Point) =>
                exists c,
                  cur = Fin c
                  /\ (c == Qn (length sampled) * q)%Q
                  /\ (forall k p, sampled !! k = Some p ->
                                  (cumulativeDistance p === Fin (Qn k * q))%num = true)
                  /\ (forall m, length sampled = S m -> (Qn m * q <= t)%Q)).
  assert (Hpush : forall cur acc p,
             Inv cur acc ->
             (cur <=? Fin t)%num = true ->
             (cumulativeDistance p === cur)%num = true ->
             Inv (cur + Fin q)%num (acc ++ [p])).
  { intros cur acc p (c & -> & Hc & Hel & Hm) Hle Hseq.
    cbn in Hle. apply Qle_bool_iff in Hle.
    exists (c + q)%Q. split; [reflexivity|]. split; [|split].
    - rewrite length_app, Nat.add_1_r, Qn_succ. lra.
    - intros k p' Hk. destruct (Nat.lt_ge_cases k (length acc)) as [Hlt|Hge].
      + rewrite lookup_app_l in Hk by exact Hlt. apply Hel, Hk.
      + rewrite lookup_app_r in Hk by exact Hge.
        destruct (k - length acc)%nat as [|d] eqn:Ed; [|destruct d; discriminate Hk].
        injection Hk as <-. replace k with (length acc) by lia.
        eapply seq_Qeq; [exact Hseq|exact Hc].
    - intros m Hlen. rewrite length_app, Nat.add_1_r in Hlen.
      injection Hlen as <-. lra. }
  destruct (sample_loop_trace points (Fin q) (Fin t) Inv)
    with (fuel := fuel) (cur := of_Z 0) (sampled := @nil Point) (out := sampled)
    as (cur' & (c' & -> & Hc' & Hel & Hm) & Hexit); [| | |exact Hloop|].
  - intros cur acc idx next HI Hle Hloc [Hseq| ->]; [apply Hpush; assumption|].
    apply Hpush; [exact HI|exact Hle|].
    apply find_Some in Hloc as (_ & Hnext & Hge).
    injection Hnext as <-.
    destruct HI as (c & -> & Hc & _).
    pose proof (Qn_nonneg (length acc)) as Hn.
    assert (0 <= c)%Q by (rewrite Hc; apply Qmult_le_0_compat; [exact Hn|lra]).
    clear - Hfirst Hge H. destruct first as [? ? d]. cbn in *. num_solve.
  - intros cur acc idx next prev HI Hle _ _ _ _. apply Hpush; [exact HI|exact Hle|].
    cbn. destruct HI as (c & -> & _). cbn. apply Qeq_bool_iff. reflexivity.
  - exists 0%Q. split; [reflexivity|]. split; [change (Qn (length (@nil Point))) with 0%Q; lra|].
    split; [intros k p Hk; discriminate Hk|intros m Hlen; discriminate Hlen].
  - assert (Hpast : (t < c')%Q).
    { destruct Hexit as [Hexit|[Hle Hnone]].
      - cbn in Hexit. apply Qle_bool_false in Hexit. exact Hexit.
      - exfalso. destruct (last points) as [lastPoint|] eqn:Hlast;
          [|apply last_None in Hlast; discriminate Hlast].
        assert (Hcd : cumulativeDistance lastPoint = Fin t).
        { unfold total in Htotal. rewrite Hlast in Htotal. exact Htotal. }
        pose proof (find_None _ _ Hnone lastPoint (last_elem_of _ _ Hlast)) as Hpred.
        cbn beta in Hpred. unfold Num.ge in Hpred. rewrite Hcd, Hle in Hpred.
        discriminate Hpred. }
    destruct (length sampled) as [|m] eqn:Hlen.
    + exfalso. change (Qn 0) with 0%Q in Hc'. lra.
    + exists m. split; [reflexivity|]. split; [exact Hel|].
      split; [apply Hm; reflexivity|]. rewrite <- Hc'. exact Hpast.
Qed.

(** The shape of what the sampler returns on a track that starts at 0, for
    a finite positive interval: the number of points and where they lie. *)
Lemma sample_shape (fuel : nat) (first : Point) (rest : list Point)
    (t q : Q) :
  (cumulativeDistance first === 0)%num = true ->
  nondecreasing (first :: rest) = true ->
  total (first :: rest) = Fin t ->
  (0 < q)%Q ->
  (enough_fuel (first :: rest) (Fin q) <= fuel)%nat ->
  exists out,
    samplePointsByDistance fuel (first :: rest) (Fin q) = Done out
    /\ length out = samples_count t q
    /\ forall k p, out !! k = Some p ->
                   (cumulativeDistance p === Fin (offset_of t q k))%num = true.
Proof.
  intros Hfirst Hnd Htotal Hq Hfuel.
  set (points := first :: rest) in *.
  assert (Ht : (0 <= t)%Q).
  { assert (H : (cumulativeDistance first <=? total points)%num = true).
    { apply nondecreasing_le_total; [exact Hnd|rewrite Htotal; reflexivity|left]. }
    rewrite Htotal in H. clear - Hfirst H. destruct first as [? ? d]. cbn in *. num_solve. }
  destruct (last points) as [lastPoint|] eqn:Hlast;
    [|apply last_None in Hlast; discriminate Hlast].
  assert (Hcd : cumulativeDistance lastPoint = Fin t).
  { unfold total in Htotal. rewrite Hlast in Htotal. exact Htotal. }
  assert (Hguard : (Fin q <=? 0)%num = false) by (cbn; apply Qle_bool_false; exact Hq).
  rewrite (samplePointsByDistance_unfold _ _ _ _ Hlast Hguard), Hcd.
  destruct (sample_loop_terminates points (Fin q) t fuel Htotal) as [sampled Hloop];
    [cbn; apply negb_true_iff, Qle_bool_false; exact Hq|exact Hfuel|].
  rewrite Hloop.
  destruct (sample_loop_count first rest t q fuel sampled Hfirst Htotal Ht Hq Hloop)
    as (m & Hlen & Hel & Hlow & Hhigh).
  assert (Hs : exists s, last sampled = Some s
                         /\ (cumulativeDistance s === Fin (Qn m * q))%num = true).
  { rewrite last_lookup, Hlen. cbn [pred].
    destruct (sampled !! m) as [s|] eqn:Es.
    - exists s. split; [reflexivity|]. apply Hel, Es.
    - apply lookup_ge_None in Es. lia. }
  destruct Hs as (s & Hs & Hscd). rewrite Hs.
  assert (Hin : forall k p, sampled !! k = Some p ->
                  (cumulativeDistance p === Fin (offset_of t q k))%num = true).
  { intros k p Hk. pose proof (lookup_lt_Some _ _ _ Hk) as Hklt.
    unfold offset_of. cbv zeta.
    assert (Hkq : (Qn k * q <= t)%Q).
    { eapply Qle_trans; [apply Qn_mult_le; [exact Hq|]|exact Hlow]. lia. }
    apply Qle_bool_iff in Hkq. rewrite Hkq. apply Hel, Hk. }
  destruct (cumulativeDistance s) as [| | |x] eqn:Ex; try discriminate Hscd.
  cbn in Hscd. apply Qeq_bool_iff in Hscd.
  destruct (Fin x <? Fin t)%num eqn:Hlt; cbn in Hlt.
  - apply negb_true_iff, Qle_bool_false in Hlt.
    eexists. split; [reflexivity|]. split.
    + rewrite length_app, Hlen. cbn [length]. unfold samples_count.
      rewrite (Qceiling_unique (t / q) (Z.of_nat m + 1)).
      * lia.
      * replace (Z.of_nat m + 1 - 1) with (Z.of_nat m) by lia.
        apply Qlt_shift_div_l; [exact Hq|lra].
      * apply Qle_shift_div_r; [exact Hq|].
        replace (Z.of_nat m + 1) with (Z.of_nat (S m)) by lia. lra.
    + intros k p Hk. destruct (Nat.lt_ge_cases k (length sampled)) as [Hklt|Hkge].
      * rewrite lookup_app_l in Hk by exact Hklt. apply Hin, Hk.
      * rewrite lookup_app_r in Hk by exact Hkge.
        destruct (k - length sampled)%nat as [|d] eqn:Ed; [|destruct d; discriminate Hk].
        injection Hk as <-. replace k with (S m) by lia.
        rewrite Hcd. unfold offset_of. cbv zeta.
        assert (Hbool : Qle_bool (Qn (S m) * q) t = false)
          by (apply Qle_bool_false; exact Hhigh).
        rewrite Hbool. cbn. apply Qeq_bool_iff. reflexivity.
  - apply negb_false_iff, Qle_bool_iff in Hlt.
    eexists. split; [reflexivity|]. split; [|exact Hin].
    rewrite Hlen. unfold samples_count.
    rewrite (Qceiling_unique (t / q) (Z.of_nat m)).
    + lia.
    + apply Qlt_shift_div_l; [exact Hq|].
      unfold Z.sub. rewrite inject_Z_plus. change (inject_Z (- (1))%Z) with (-1 # 1)%Q. lra.
    + apply Qle_shift_div_r; [exact Hq|]. lra.
Qed.

(** X7: on a track that starts at the distance 0, with cumulative distances
    that do not decrease and the finite total [t], and for an interval of a
    whole number [i] of meters above 0 with [t + i <= 2^53], the sampler
    returns [ceiling (t / i) + 1] points, and its point number [k] (from 0)
    lies at the distance [k * i], or at [t] where [k * i] is beyond it.
    The offsets are whole numbers up to [2^53]: binary64 adds the interval
    to each of them without rounding. *)
Theorem sample_count_and_spacing (fuel : nat) (first : Point) (rest : list Point)
    (t : Q) (i : Z) :
  (cumulativeDistance first === 0)%num = true ->
  nondecreasing (first :: rest) = true ->
  total (first :: rest) = Fin t ->
  0 < i ->
  (t + inject_Z i <= inject_Z (2 ^ 53))%Q ->
  (enough_fuel (first :: rest) (of_Z i) <= fuel)%nat ->
  exists out,
    samplePointsByDistance fuel (first :: rest) (of_Z i) = Done out
    /\ length out = samples_count t (inject_Z i)
    /\ (forall k p, out !! k = Some p ->
                    (cumulativeDistance p === Fin (offset_of t (inject_Z i) k))%num = true)
    /\ (forall k : nat,
          (inject_Z (Z.of_nat k * i) <= t)%Q ->
          (of_Z (Z.of_nat k * i) + of_Z i)%b64 = of_Z (Z.of_nat k * i + i)).
Proof.
  intros Hfirst Hnd Htotal Hi Hsize Hfuel.
  assert (Hq : (0 < inject_Z i)%Q).
  { change 0%Q with (inject_Z 0). rewrite <- Zlt_Qlt. exact Hi. }
  destruct (sample_shape fuel first rest t (inject_Z i) Hfirst Hnd Htotal Hq Hfuel)
    as (out & Hout & Hlen & Hcd).
  exists out. split; [exact Hout|]. split; [exact Hlen|]. split; [exact Hcd|].
  intros k Hk. apply add_whole.
  assert (Hle : (inject_Z (Z.of_nat k * i + i) <= inject_Z (2 ^ 53))%Q).
  { rewrite inject_Z_plus. lra. }
  rewrite <- Zle_Qle in Hle. nia.
Qed.

Lemma sample_count_and_spacing_witness :
  exists out,
    samplePointsByDistance 3 [at_distance 0; at_distance 500; at_distance 1200] (of_Z 1000)
    = Done out
    /\ length out = samples_count 1200 (inject_Z 1000)
    /\ (forall k p, out !! k = Some p ->
                    (cumulativeDistance p === Fin (offset_of 1200 (inject_Z 1000) k))%num
                    = true)
    /\ (forall k : nat,
          (inject_Z (Z.of_nat k * 1000) <= 1200)%Q ->
          (of_Z (Z.of_nat k * 1000) + of_Z 1000)%b64 = of_Z (Z.of_nat k * 1000 + 1000)).
Proof.
  apply (sample_count_and_spacing 3 (at_distance 0) [at_distance 500; at_distance 1200]
           1200 1000);
    [reflexivity|reflexivity|reflexivity|reflexivity|vm_compute; discriminate
    |vm_compute; lia].
Defined.

(* ===================================================================== *)
(** ** The time projector: the order of the times *)
(* ===================================================================== *)







(* ===================================================================== *)
(** ** The weather annotator: markers, errors and requests *)
(* ===================================================================== *)

Section AnnotatorWorld.

Variable Response : Type.
Variable service : list Request -> Request -> result Response.
Variable json : Response -> result Data.
Variable getHours : Z -> Z.
Variable Marker : Type.
Variable L_marker : value -> value -> value -> result Marker.

Local Abbreviation try_body' := (try_body Response service json getHours Marker L_marker).
Local Abbreviation for_of' := (for_of Response service json getHours Marker L_marker).
Local Abbreviation fetchWeatherData' :=
  (fetchWeatherData Response service json getHours Marker L_marker).

Ltac settle :=
  repeat (cbn;
          match goal with
          | |- context [call ?r] => destruct r
          | |- context [prop ?o _] => destruct o
          end).

(** One turn of the [for] loop leaves either one more marker, with one more
    weather point, or one more logged error; the timeline is not touched. *)
Lemma try_step_marks (point : object) (s : State Marker) :
  exists s',
    try_catch Marker (try_body' point) (console_error Marker) s = (Done tt, s')
    /\ weatherTimeline (world s') = weatherTimeline (world s)
    /\ ((length (markers (world s')) = S (length (markers (world s)))
         /\ console (world s') = console (world s)
         /\ length (weatherData s') = S (length (weatherData s)))
        \/ (markers (world s') = markers (world s)
            /\ (exists e, console (world s') = console (world s) ++ [e])
            /\ (length (weatherData s) <= length (weatherData s'))%nat)).
Proof.
  unfold try_catch, try_body, eff_bind, lift, fetch, push, addMarker,
    with_world, console_error, hourly_at.
  destruct (get point "time") as [| |n|[|ms]]; settle;
    eexists; (split; [reflexivity|]); cbn; (split; [reflexivity|]);
    rewrite ?length_app; cbn;
    first [ left; repeat split; lia
          | right; split; [reflexivity|]; split; [eauto|lia] ].
Qed.

Lemma for_of_marks (points : list object) :
  forall s : State Marker,
    exists s' errors,
      for_of' points s = (Done tt, s')
      /\ weatherTimeline (world s') = weatherTimeline (world s)
      /\ console (world s') = console (world s) ++ errors
      /\ (length (markers (world s')) + length errors
          = length (markers (world s)) + length points)%nat
      /\ (length (markers (world s')) + length (weatherData s)
          <= length (markers (world s)) + length (weatherData s'))%nat.
Proof.
  induction points as [|point rest IH]; intros s.
  - exists s, []. cbn. rewrite app_nil_r. repeat split; lia.
  - destruct (try_step_marks point s) as (s1 & Hrun & Htl & Hcase).
    destruct (IH s1) as (s2 & errors & Hrest & Htl2 & Hcon & Hcount & Hle).
    destruct Hcase as [(Hm & Hc & Hw)|(Hm & [e Hc] & Hw)].
    + exists s2, errors. split; [|repeat split].
      * cbn [for_of]. unfold eff_bind at 1. rewrite Hrun. exact Hrest.
      * congruence.
      * congruence.
      * cbn [length]. lia.
      * lia.
    + exists s2, (e :: errors). split; [|repeat split].
      * cbn [for_of]. unfold eff_bind at 1. rewrite Hrun. exact Hrest.
      * congruence.
      * rewrite Hcon, Hc, <- app_assoc. reflexivity.
      * rewrite Hm in *. cbn [length]. lia.
      * rewrite Hm in *. lia.
Qed.

(** X9: a run of [fetchWeatherData] drops the markers of before; at its end
    every point has left either one marker or one error logged after those
    of before, there are at most as many markers as weather points, and the
    timeline shows one card per weather point. *)
Theorem fetchWeatherData_markers_and_errors (points : list object) (w : World Marker) :
  exists s errors,
    fetchWeatherData' points w = (Done tt, s)
    /\ console (world s) = console w ++ errors
    /\ (length (markers (world s)) + length errors = length points)%nat
    /\ (length (markers (world s)) <= length (weatherData s))%nat
    /\ weatherTimeline (world s) = map card (weatherData s).
Proof.
  unfold fetchWeatherData, eff_bind, clearMarkers, with_world.
  cbn [weatherData world].
  match goal with
  | |- context [for_of' points ?s0] =>
      destruct (for_of_marks points s0) as (s1 & errors & H1 & _ & Hcon & Hcount & Hle)
  end.
  rewrite H1. unfold displayWeather, with_world.
  eexists. exists errors. split; [reflexivity|]. cbn in *.
  repeat split; [exact Hcon|lia|lia].
Qed.

(** A point whose time is an invalid date: the date cannot be printed, no
    request is sent, and the [RangeError] is logged. *)
Lemma try_step_invalid_time (point : object) (s : State Marker) :
  get point "time" = VDate InvalidDate ->
  try_catch Marker (try_body' point) (console_error Marker) s
  = (Done tt,
     {| weatherData := weatherData s;
        world := {| requests := requests (world s); markers := markers (world s);
                    console := console (world s) ++ [RangeError];
                    weatherTimeline := weatherTimeline (world s) |} |}).
Proof.
  intros Htime.
  unfold try_catch, try_body, eff_bind, lift, console_error, with_world.
  rewrite Htime. reflexivity.
Qed.

Lemma for_of_invalid_times (points : list object) :
  Forall (fun o => get o "time" = VDate InvalidDate) points ->
  forall s : State Marker,
    for_of' points s
    = (Done tt,
       {| weatherData := weatherData s;
          world := {| requests := requests (world s); markers := markers (world s);
                      console := console (world s) ++ replicate (length points) RangeError;
                      weatherTimeline := weatherTimeline (world s) |} |}).
Proof.
  induction 1 as [|point rest Hpoint _ IH]; intros s.
  - cbn. rewrite app_nil_r. destruct s as [wd [? ? ? ?]]. reflexivity.
  - cbn [for_of]. unfold eff_bind at 1. rewrite (try_step_invalid_time point s Hpoint).
    rewrite IH. cbn. rewrite <- app_assoc. reflexivity.
Qed.

(** X10: when the start time is invalid or the average speed is 0, the
    times of all points are invalid dates, and the run of [fetchWeatherData]
    on them sends no request, places no marker, shows an empty timeline, and
    logs one [RangeError] per point. *)
Theorem invalid_times_send_nothing (points : list Point) (startTime : Date)
    (avgSpeed : num) (w : World Marker) :
  startTime = InvalidDate \/ (avgSpeed === 0)%num = true ->
  exists timedPoints s,
    calculateTimedPoints points startTime avgSpeed = Done timedPoints
    /\ fetchWeatherData' timedPoints w = (Done tt, s)
    /\ requests (world s) = requests w
    /\ weatherData s = []
    /\ markers (world s) = []
    /\ weatherTimeline (world s) = []
    /\ console (world s) = console w ++ replicate (length points) RangeError.
Proof.
  intros Hcase.
  assert (Hinvalid : Forall (fun o => get o "time" = VDate InvalidDate)
                            (map (timedPoint startTime avgSpeed) points)).
  { apply Forall_fmap, Forall_forall. intros point _. cbn [compose].
    rewrite timedPoint_time. destruct Hcase as [->|Hz].
    - reflexivity.
    - rewrite zero_speed_time by exact Hz. reflexivity. }
  eexists. eexists. split; [reflexivity|].
  unfold fetchWeatherData, eff_bind, clearMarkers, with_world.
  cbn [weatherData world]. rewrite (for_of_invalid_times _ Hinvalid).
  unfold displayWeather, with_world. cbn. rewrite length_map.
  repeat split; reflexivity.
Qed.

End AnnotatorWorld.

Lemma invalid_times_send_nothing_witness :
  exists timedPoints s,
    calculateTimedPoints [at_distance 0; at_distance 15000] (ValidDate 0) 0
    = Done timedPoints
    /\ fetchWeatherData Data third_fails Ok (fun _ => 0) unit (fun _ _ _ => Ok tt)
         timedPoints
         {| requests := []; markers := [tt]; console := []; weatherTimeline := [] |}
       = (Done tt, s)
    /\ requests (world s) = []
    /\ weatherData s = []
    /\ markers (world s) = []
    /\ weatherTimeline (world s) = []
    /\ console (world s)
       = [] ++ replicate (length [at_distance 0; at_distance 15000]) RangeError.
Proof.
  apply (invalid_times_send_nothing Data third_fails Ok (fun _ => 0) unit
           (fun _ _ _ => Ok tt) [at_distance 0; at_distance 15000] (ValidDate 0) 0
           {| requests := []; markers := [tt]; console := []; weatherTimeline := [] |}).
  right. reflexivity.
Defined.

(* ===================================================================== *)
(** ** The upload handler: what a run comes to *)
(* ===================================================================== *)

Section PageFacts.

Variable LatLng : Type.
Variable latLng : num -> num -> result LatLng.
Variable distanceTo : LatLng -> LatLng -> num.
Variable Response : Type.
Variable service : list Request -> Request -> result Response.
Variable json : Response -> result Data.
Variable getHours : Z -> Z.
Variable Marker : Type.
Variable L_marker : value -> value -> value -> result Marker.
Variable Route : Type.
Variable L_polyline : list (num * num) -> result Route.
Variable fitBounds : Route -> result unit.

Local Abbreviation processGPX' := (processGPX LatLng latLng distanceTo).
Local Abbreviation fetchWeatherData' :=
  (fetchWeatherData Response service json getHours Marker L_marker).
Local Abbreviation gpxUpload_change' :=
  (gpxUpload_change LatLng latLng distanceTo Response service json getHours
     Marker L_marker Route L_polyline fitBounds).

(** A run of [fetchWeatherData] completes, with at most one card per point. *)
Lemma fetchWeatherData_completes (points : list object) (w : World Marker) :
  exists s,
    fetchWeatherData' points w = (Done tt, s)
    /\ (length (weatherTimeline (world s)) <= length points)%nat.
Proof.
  unfold fetchWeatherData, eff_bind, clearMarkers, with_world.
  cbn [weatherData world].
  match goal with
  | |- context [for_of _ _ _ _ _ _ points ?s0] =>
      destruct (for_of_spec Response service json getHours Marker L_marker points s0)
        as (s1 & H1 & Hdata & _)
  end.
  rewrite H1. unfold displayWeather, with_world. eexists. split; [reflexivity|].
  cbn in *. rewrite length_map, Hdata. apply length_successes.
Qed.

(** X12: a run of the upload handler on a file that ends either shows an
    error and leaves the markers, the timeline and the requests as they
    were, or shows no new error.  An error is shown only when the file
    cannot be read, Leaflet refuses a coordinate of the track, or the route
    cannot be drawn: never for the sampling, the times or a weather lookup.
    Without an error, the route is the polyline of all coordinates of the
    file, and the timeline has at most one card per sampled point. *)
Theorem gpxUpload_change_outcome (fuel : nat) (text : result (list (num * num)))
    (startTime : Date) (avgSpeed intervalKm : num) (pg pg' : Page Marker Route) :
  gpxUpload_change' fuel (Some text) startTime avgSpeed intervalKm pg = Done pg' ->
  (exists e,
     errorContainer pg' = Some e
     /\ page_world pg' = page_world pg
     /\ ((routeLayer pg' = routeLayer pg
          /\ (text = Err e
              \/ exists trackPoints,
                   text = Ok trackPoints /\ processGPX' trackPoints = Throw e))
         \/ exists trackPoints points,
              text = Ok trackPoints
              /\ processGPX' trackPoints = Done points
              /\ ((routeLayer pg' = routeLayer pg /\ L_polyline trackPoints = Err e)
                  \/ exists route,
                       L_polyline trackPoints = Ok route
                       /\ fitBounds route = Err e
                       /\ routeLayer pg' = Some route)))
  \/ (exists trackPoints points sampledPoints route s,
        text = Ok trackPoints
        /\ processGPX' trackPoints = Done points
        /\ samplePointsByDistance fuel points (intervalKm * 1000)%num = Done sampledPoints
        /\ L_polyline trackPoints = Ok route
        /\ routeLayer pg' = Some route
        /\ errorContainer pg' = errorContainer pg
        /\ fetchWeatherData' (map (timedPoint startTime avgSpeed) sampledPoints)
             (page_world pg) = (Done tt, s)
        /\ page_world pg' = world s
        /\ (length (weatherTimeline (page_world pg')) <= length sampledPoints)%nat).
Proof.
  unfold gpxUpload_change, prepare. intros H.
  destruct text as [trackPoints|e]; cbn [call mbind outcome_bind] in H.
  - destruct (processGPX' trackPoints) as [points|e|] eqn:Hload;
      cbn [mbind outcome_bind] in H; [| |discriminate].
    + pose proof (processGPX_from_coordinates _ _ _ _ _ _ _ _ _ Hload) as Hcoords.
      cbn [map app] in Hcoords.
      destruct (samplePointsByDistance fuel points (intervalKm * 1000)%num)
        as [sampledPoints|e|] eqn:Hsample; cbn [mbind outcome_bind] in H;
        [|exfalso; eapply samplePointsByDistance_no_throw, Hsample|discriminate].
      unfold calculateTimedPoints in H. cbn [mbind outcome_bind] in H.
      unfold displayRoute in H. rewrite Hcoords in H.
      destruct (L_polyline trackPoints) as [route|e] eqn:Hline.
      * destruct (fitBounds route) as [[]|e] eqn:Hfit.
        -- cbv zeta in H. cbn [page_world routeLayer errorContainer] in H.
           destruct (fetchWeatherData_completes
                       (map (timedPoint startTime avgSpeed) sampledPoints)
                       (page_world pg)) as (s & Hrun & Hcards).
           rewrite Hrun in H. injection H as <-. right.
           exists trackPoints, points, sampledPoints, route, s.
           cbn [page_world routeLayer errorContainer].
           rewrite length_map in Hcards. auto 10.
        -- injection H as <-. left. exists e. cbn. split; [reflexivity|].
           split; [reflexivity|]. right. exists trackPoints, points. eauto 10.
      * injection H as <-. left. exists e. cbn. split; [reflexivity|].
        split; [reflexivity|]. right. exists trackPoints, points. auto 10.
    + injection H as <-. left. exists e. cbn. split; [reflexivity|].
      split; [reflexivity|]. left. split; [reflexivity|]. right. eauto.
  - injection H as <-. left. exists e. cbn. split; [reflexivity|].
    split; [reflexivity|]. left. auto.
Qed.

End PageFacts.

Lemma gpxUpload_change_outcome_witness :
  let pg := {| page_world := {| requests := []; markers := [tt]; console := [];
                                weatherTimeline := [] |};
               routeLayer := @None (list (num * num));
               errorContainer := None |} in
  let pg' := showError unit (list (num * num)) InvalidLatLng pg in
  let text := Ok [(of_Z 0, of_Z 0); (NaN, of_Z 0)] in
  (exists e,
     errorContainer pg' = Some e
     /\ page_world pg' = page_world pg
     /\ ((routeLayer pg' = routeLayer pg
          /\ (text = Err e
              \/ exists trackPoints,
                   text = Ok trackPoints
                   /\ processGPX (num * num) plane_latLng plane_distanceTo trackPoints
                      = Throw e))
         \/ exists trackPoints points,
              text = Ok trackPoints
              /\ processGPX (num * num) plane_latLng plane_distanceTo trackPoints
                 = Done points
              /\ ((routeLayer pg' = routeLayer pg /\ list_polyline trackPoints = Err e)
                  \/ exists route,
                       list_polyline trackPoints = Ok route
                       /\ list_fitBounds route = Err e
                       /\ routeLayer pg' = Some route)))
  \/ (exists trackPoints points sampledPoints route s,
        text = Ok trackPoints
        /\ processGPX (num * num) plane_latLng plane_distanceTo trackPoints = Done points
        /\ samplePointsByDistance 5 points (1 * 1000)%num = Done sampledPoints
        /\ list_polyline trackPoints = Ok route
        /\ routeLayer pg' = Some route
        /\ errorContainer pg' = errorContainer pg
        /\ fetchWeatherData Data third_fails Ok (fun _ => 0) unit (fun _ _ _ => Ok tt)
             (map (timedPoint (ValidDate 0) 30) sampledPoints) (page_world pg)
           = (Done tt, s)
        /\ page_world pg' = world s
        /\ (length (weatherTimeline (page_world pg')) <= length sampledPoints)%nat).
Proof.
  intros pg pg' text.
  apply (gpxUpload_change_outcome (num * num) plane_latLng plane_distanceTo
           Data third_fails Ok (fun _ => 0) unit (fun _ _ _ => Ok tt)
           (list (num * num)) list_polyline list_fitBounds
           5 text (ValidDate 0) 30 1 pg pg').
  reflexivity.
Defined.

(* ===================================================================== *)
(** ** The distance sampler: sampling a sampled track again *)
(* ===================================================================== *)

Lemma find_from_first (pred : Point -> bool) (l : list Point) :
  forall (n : nat) (i : Z) (p : Point),
    l !! n = Some p ->
    pred p = true ->
    (forall k q, (k < n)%nat -> l !! k = Some q -> pred q = false) ->
    find_from pred l i = Some (i + Z.of_nat n, p).
Proof.
  induction l as [|a l IH]; intros n i p Hn Hp Hbefore; [discriminate|].
  cbn [find_from]. destruct n as [|n].
  - injection Hn as ->. rewrite Hp. f_equal. f_equal. lia.
  - rewrite (Hbefore 0%nat a) by (reflexivity || lia).
    rewrite (IH n (i + 1) p Hn Hp).
    + f_equal. f_equal. lia.
    + intros k q Hk Hq. apply (Hbefore (S k) q); [lia|exact Hq].
Qed.

Lemma Qn_to_nat (z : Z) : 0 <= z -> Qn (Z.to_nat z) = inject_Z z.
Proof. intros H. rewrite Z2Nat.id by exact H. reflexivity. Qed.

Lemma Qceiling_nonneg (x : Q) : (0 <= x)%Q -> 0 <= Qceiling x.
Proof. intros H. change 0 with (Qceiling 0). apply Qceiling_resp_le, H. Qed.

(** A sequence of points of the shape that the sampler gives, for the total
    [t] and the interval [q], is returned as it is when it is sampled at
    the interval [q]. *)
Lemma resample_fixed (l : list Point) (t q : Q) (fuel : nat) :
  (0 <= t)%Q ->
  (0 < q)%Q ->
  length l = samples_count t q ->
  (forall k p, l !! k = Some p ->
               (cumulativeDistance p === Fin (offset_of t q k))%num = true) ->
  (enough_fuel l (Fin q) <= fuel)%nat ->
  samplePointsByDistance fuel l (Fin q) = Done l.
Proof.
  intros Ht Hq Hlen Hshape Hfuel.
  set (C := Qceiling (t / q)).
  assert (Hx : (0 <= t / q)%Q) by (apply Qle_shift_div_l; [exact Hq|lra]).
  assert (HC : 0 <= C) by (apply Qceiling_nonneg, Hx).
  assert (HCup : (t <= inject_Z C * q)%Q).
  { pose proof (Qle_ceiling (t / q)) as H. fold C in H.
    apply (Qmult_le_compat_r _ _ q) in H; [|lra].
    assert (Heq : (t / q * q == t)%Q) by (field; lra). rewrite Heq in H. exact H. }
  assert (HClow : (inject_Z (C - 1) * q < t)%Q).
  { pose proof (Qceiling_lt (t / q)) as H. fold C in H.
    apply (Qmult_lt_compat_r _ _ q Hq) in H.
    assert (Heq : (t / q * q == t)%Q) by (field; lra). rewrite Heq in H. exact H. }
  unfold samples_count in Hlen. fold C in Hlen.
  (* the offsets inside the track lie at their multiples of the interval *)
  assert (Hinside : forall k p, l !! k = Some p -> (Qn k * q <= t)%Q ->
                      exists x, cumulativeDistance p = Fin x /\ (x == Qn k * q)%Q).
  { intros k p Hk Hkq. specialize (Hshape k p Hk). unfold offset_of in Hshape.
    cbv zeta in Hshape. apply Qle_bool_iff in Hkq. rewrite Hkq in Hshape.
    destruct (cumulativeDistance p) as [| | |x]; try discriminate Hshape.
    cbn in Hshape. apply Qeq_bool_iff in Hshape. eauto. }
  (* the last point lies at the total *)
  destruct (last l) as [lastPoint|] eqn:Hlast;
    [|apply last_None in Hlast; subst l; cbn in Hlen; lia].
  assert (HlastN : l !! Z.to_nat C = Some lastPoint).
  { rewrite last_lookup, Hlen in Hlast. rewrite Nat.add_1_r in Hlast. exact Hlast. }
  assert (Hend : exists t', cumulativeDistance lastPoint = Fin t' /\ (t' == t)%Q).
  { specialize (Hshape _ _ HlastN). unfold offset_of in Hshape. cbv zeta in Hshape.
    rewrite Qn_to_nat in Hshape by exact HC.
    destruct (cumulativeDistance lastPoint) as [| | |x]; try discriminate Hshape.
    exists x. split; [reflexivity|].
    destruct (Qle_bool (inject_Z C * q) t) eqn:E; cbn in Hshape;
      apply Qeq_bool_iff in Hshape; [apply Qle_bool_iff in E; lra|exact Hshape]. }
  destruct Hend as (t' & Hcd & Ht').
  assert (Htotal : total l = Fin t') by (unfold total; rewrite Hlast; exact Hcd).
  assert (Hguard : (Fin q <=? 0)%num = false) by (cbn; apply Qle_bool_false; exact Hq).
  rewrite (samplePointsByDistance_unfold _ _ _ _ Hlast Hguard), Hcd.
  destruct (sample_loop_terminates l (Fin q) t' fuel Htotal) as [sampled Hloop];
    [cbn; apply negb_true_iff, Qle_bool_false; exact Hq|exact Hfuel|].
  rewrite Hloop.
  (* what the loop locates at the offset number n *)
  assert (Hlocate : forall n c,
             (c == Qn n * q)%Q -> (c <= t)%Q ->
             exists p, l !! n = Some p
                       /\ (cumulativeDistance p === Fin c)%num = true
                       /\ find (fun p => (cumulativeDistance p >=? Fin c)%num) l
                          = Some (Z.of_nat n, p)).
  { intros n c Hc Hct.
    assert (Hn : (Qn n <= inject_Z C)%Q).
    { apply (Qmult_le_r _ _ q Hq). lra. }
    rewrite <- Zle_Qle in Hn.
    destruct (lookup_lt_is_Some_2 l n) as [p Hp]; [lia|].
    destruct (Hinside n p Hp) as (x & Hpx & Hxq); [lra|].
    exists p. split; [exact Hp|]. split.
    - rewrite Hpx. cbn. apply Qeq_bool_iff. lra.
    - apply (find_from_first _ l n 0 p Hp).
      + unfold Num.ge. rewrite Hpx. cbn. apply Qle_bool_iff. lra.
      + intros k pk Hk Hpk.
        assert (Hkn : (Qn k * q < Qn n * q)%Q).
        { apply Qmult_lt_compat_r; [exact Hq|]. rewrite <- Zlt_Qlt. lia. }
        destruct (Hinside k pk Hpk) as (y & Hpy & Hyq); [lra|].
        unfold Num.ge. rewrite Hpy. cbn. apply Qle_bool_false. lra. }
  set (Inv := fun (cur : num) (sampled : list Point) =>
                exists n c,
                  cur = Fin c
                  /\ (c == Qn n * q)%Q
                  /\ sampled = take n l
                  /\ (n <= length l)%nat
                  /\ (forall m, n = S m -> (Qn m * q <= t)%Q)).
  assert (Hturn : forall cur acc idx next,
             Inv cur acc ->
             (cur <=? Fin t')%num = true ->
             find (fun p => (cumulativeDistance p >=? cur)%num) l = Some (idx, next) ->
             (cumulativeDistance next === cur)%num = true
             /\ Inv (cur + Fin q)%num (acc ++ [next])).
  { intros cur acc idx next (n & c & -> & Hc & -> & Hn & Hm) Hle Hloc.
    cbn in Hle. apply Qle_bool_iff in Hle.
    destruct (Hlocate n c Hc) as (p & Hp & Hseq & Hfind); [lra|].
    rewrite Hfind in Hloc. injection Hloc as <- <-.
    split; [exact Hseq|].
    exists (S n), (c + q)%Q. split; [reflexivity|]. split; [rewrite Qn_succ; lra|].
    split; [symmetry; apply take_S_r, Hp|].
    split; [apply lookup_lt_Some in Hp; lia|].
    intros m [= <-]. lra. }
  destruct (sample_loop_trace l (Fin q) (Fin t') Inv)
    with (fuel := fuel) (cur := of_Z 0) (sampled := @nil Point) (out := sampled)
    as (cur' & (n & c & -> & Hc & -> & Hn & Hm) & Hexit); [| | |exact Hloop|].
  - intros cur acc idx next HI Hle Hloc _. eapply Hturn; eassumption.
  - intros cur acc idx next prev HI Hle Hloc Hseq _ _. exfalso.
    destruct (Hturn cur acc idx next HI Hle Hloc) as [Hyes _]. congruence.
  - exists 0%nat, 0%Q. split; [reflexivity|]. split; [change (Qn 0) with 0%Q; lra|].
    split; [reflexivity|]. split; [lia|]. intros m Hm. discriminate Hm.
  - assert (Hpast : (t < c)%Q).
    { destruct Hexit as [Hexit|[Hle Hnone]].
      - cbn in Hexit. apply Qle_bool_false in Hexit. lra.
      - exfalso. cbn in Hle. apply Qle_bool_iff in Hle.
        destruct (Hlocate n c Hc) as (p & _ & _ & Hfind); [lra|]. congruence. }
    destruct n as [|m]; [exfalso; change (Qn 0) with 0%Q in Hc; lra|].
    specialize (Hm m eq_refl).
    assert (Hm' : exists s x, l !! m = Some s /\ cumulativeDistance s = Fin x
                              /\ (x == Qn m * q)%Q).
    { destruct (lookup_lt_is_Some_2 l m) as [s Hs]; [lia|].
      destruct (Hinside m s Hs Hm) as (x & Hsx & Hxq). eauto. }
    destruct Hm' as (s & x & Hs & Hsx & Hxq).
    assert (Hlast' : last (take (S m) l) = Some s).
    { rewrite last_lookup, length_take, Nat.min_l by lia. cbn [pred].
      rewrite lookup_take_lt by lia. exact Hs. }
    rewrite Hlast', Hsx. rewrite Qn_succ in Hc.
    destruct (Fin x <? Fin t')%num eqn:Hlt; cbn in Hlt.
    + apply negb_true_iff, Qle_bool_false in Hlt.
      assert (HCm : C = Z.of_nat m + 1).
      { apply Qceiling_unique.
        - replace (Z.of_nat m + 1 - 1) with (Z.of_nat m) by lia.
          apply Qlt_shift_div_l; [exact Hq|lra].
        - apply Qle_shift_div_r; [exact Hq|].
          rewrite inject_Z_plus. change (inject_Z 1) with 1%Q. lra. }
      f_equal. rewrite HCm in HlastN, Hlen.
      replace (Z.to_nat (Z.of_nat m + 1)) with (S m) in HlastN, Hlen by lia.
      rewrite <- (take_S_r _ _ _ HlastN). apply take_ge. lia.
    + apply negb_false_iff, Qle_bool_iff in Hlt.
      assert (HCm : C = Z.of_nat m).
      { apply Qceiling_unique.
        - apply Qlt_shift_div_l; [exact Hq|].
          unfold Z.sub. rewrite inject_Z_plus.
          change (inject_Z (- (1))%Z) with (-1 # 1)%Q. lra.
        - apply Qle_shift_div_r; [exact Hq|]. lra. }
      f_equal. rewrite HCm in Hlen. apply take_ge. lia.
Qed.

(** X13: sampling is stable: on a track that starts at the distance 0, with
    cumulative distances that do not decrease and a finite total, and for a
    finite interval above 0, sampling what the sampler returned once more at
    the same interval returns it unchanged. *)
Theorem sample_resample (fuel : nat) (first : Point) (rest : list Point) (t q : Q) :
  (cumulativeDistance first === 0)%num = true ->
  nondecreasing (first :: rest) = true ->
  total (first :: rest) = Fin t ->
  (0 < q)%Q ->
  (enough_fuel (first :: rest) (Fin q) <= fuel)%nat ->
  exists out,
    samplePointsByDistance fuel (first :: rest) (Fin q) = Done out
    /\ forall fuel', (enough_fuel out (Fin q) <= fuel')%nat ->
                     samplePointsByDistance fuel' out (Fin q) = Done out.
Proof.
  intros Hfirst Hnd Htotal Hq Hfuel.
  assert (Ht : (0 <= t)%Q).
  { assert (H : (cumulativeDistance first <=? total (first :: rest))%num = true).
    { apply nondecreasing_le_total; [exact Hnd|rewrite Htotal; reflexivity|left]. }
    rewrite Htotal in H. clear - Hfirst H. destruct first as [? ? d]. cbn in *. num_solve. }
  destruct (sample_shape fuel first rest t q Hfirst Hnd Htotal Hq Hfuel)
    as (out & Hout & Hlen & Hshape).
  exists out. split; [exact Hout|]. intros fuel' Hfuel'.
  apply (resample_fixed out t q fuel' Ht Hq Hlen Hshape Hfuel').
Qed.

Lemma sample_resample_witness :
  exists out,
    samplePointsByDistance 3 [at_distance 0; at_distance 500; at_distance 1200] (Fin 1000)
    = Done out
    /\ forall fuel', (enough_fuel out (Fin 1000) <= fuel')%nat ->
                     samplePointsByDistance fuel' out (Fin 1000) = Done out.
Proof.
  apply (sample_resample 3 (at_distance 0) [at_distance 500; at_distance 1200] 1200 1000);
    [reflexivity|reflexivity|reflexivity|reflexivity|vm_compute; lia].
Defined.

(* ===================================================================== *)
(** ** From the file to the timed points *)
(* ===================================================================== *)

(** X14: the loader, the sampler and the projector in a row, as the upload
    handler runs them: for a file whose coordinates Leaflet accepts, with
    distances that are never negative and a finite total of [t] meters, and
    for an interval of [km] kilometers above 0, the timed points that are
    handed to the weather lookup are [ceiling (t / (km * 1000)) + 1]. *)
Theorem prepare_count (LatLng : Type) (latLng : num -> num -> result LatLng)
    (distanceTo : LatLng -> LatLng -> num) (fuel : nat)
    (trackPoints : list (num * num)) (points : list Point)
    (startTime : Date) (avgSpeed : num) (t km : Q) :
  (forall a b, (0 <=? distanceTo a b)%num = true) ->
  processGPX LatLng latLng distanceTo trackPoints = Done points ->
  total points = Fin t ->
  (0 < km)%Q ->
  (enough_fuel points (Fin (km * 1000)) <= fuel)%nat ->
  exists timedPoints,
    prepare LatLng latLng distanceTo fuel (Ok trackPoints) startTime avgSpeed (Fin km)
    = Done (points, timedPoints)
    /\ length timedPoints = samples_count t (km * 1000).
Proof.
  intros Hdist Hload Htotal Hkm Hfuel.
  destruct points as [|first rest]; [discriminate Htotal|].
  assert (Hfirst : (cumulativeDistance first === 0)%num = true).
  { rewrite (processGPX_first_distance _ _ _ _ _ _ Hload). reflexivity. }
  assert (Hnd : nondecreasing (first :: rest) = true).
  { eapply (processGPX_from_nondecreasing LatLng latLng distanceTo trackPoints Hdist);
      [| | |exact Hload].
    - reflexivity.
    - reflexivity.
    - intros p Hp. discriminate Hp. }
  assert (Hq : (0 < km * 1000)%Q) by lra.
  destruct (sample_shape fuel first rest t (km * 1000) Hfirst Hnd Htotal Hq Hfuel)
    as (out & Hout & Hlen & _).
  exists (map (timedPoint startTime avgSpeed) out). split.
  - unfold prepare. cbn [call mbind outcome_bind]. rewrite Hload.
    cbn [mbind outcome_bind].
    change (Fin km * 1000)%num with (Fin (km * 1000)). rewrite Hout. reflexivity.
  - rewrite length_map. exact Hlen.
Qed.

Lemma prepare_count_witness :
  exists timedPoints,
    prepare Z line_latLng line_distanceTo 3
      (Ok [(of_Z 0, of_Z 0); (of_Z 500, of_Z 0); (of_Z 1200, of_Z 0)])
      (ValidDate 0) 30 (Fin 1)
    = Done ([mkPoint 0 0 0; mkPoint 500 0 500; mkPoint 1200 0 1200], timedPoints)
    /\ length timedPoints = samples_count 1200 (1 * 1000).
Proof.
  apply (prepare_count Z line_latLng line_distanceTo 3
           [(of_Z 0, of_Z 0); (of_Z 500, of_Z 0); (of_Z 1200, of_Z 0)]
           [mkPoint 0 0 0; mkPoint 500 0 500; mkPoint 1200 0 1200]
           (ValidDate 0) 30 1200 1).
  - intros a b. apply Qle_bool_iff. unfold Qle. cbn. lia.
  - reflexivity.
  - reflexivity.
  - reflexivity.
  - vm_compute. lia.
Defined.
